(** * Kolo storage core: registry, notification bus and instrumented operations

    A shallow embedding of
    - [packages/core/src/events/event-emitter.ts]   ([StorageEventEmitter]),
    - [packages/core/src/core/base-storage-adapter.ts] ([BaseStorageAdapter]),
    - the storage manager of the core package       ([StorageManager]),
    followed by the properties established about them.

    JavaScript values are modelled as follows.  A [Map] is an association
    list in insertion order (the order [Map.prototype.entries] iterates in);
    a [Set] of listeners is a duplicate-free list in insertion order, living
    in a heap of set objects because the closure returned by [on] keeps a
    reference to the set it was created for; a promise that has settled is
    the value [Settled]; [async] methods are programs of a state and
    exception monad over the observable world (clock, id source, console). *)

From Stdlib Require Import ZArith Ascii String List.
From stdpp Require Import base decidable option list strings pretty gmap sorting.

Open Scope string_scope.
Open Scope list_scope.

(* ===================================================================== *)
(** ** JavaScript primitives *)
(* ===================================================================== *)

Module JS.

(** [String.prototype.toLowerCase], on the ASCII letters. *)
Definition lower (c : ascii) : ascii :=
  let n := nat_of_ascii c in
  if (65 <=? n)%nat && (n <=? 90)%nat then ascii_of_nat (n + 32) else c.

Fixpoint toLowerCase (s : string) : string :=
  match s with
  | EmptyString => EmptyString
  | String c r => String (lower c) (toLowerCase r)
  end.

(** Truthiness of a string: only the empty string is falsy. *)
Definition truthy (s : string) : bool :=
  match s with EmptyString => false | String _ _ => true end.

(** Truthiness of a [string | undefined]. *)
Definition truthy_opt (o : option string) : bool :=
  match o with Some s => truthy s | None => false end.

(** [Map<string, V>]: entries in insertion order. *)
Definition Map (V : Type) : Type := list (string * V).

Section MapOps.
Context {V : Type}.

Fixpoint Map_get (m : Map V) (k : string) : option V :=
  match m with
  | [] => None
  | (k', v) :: r => if decide (k' = k) then Some v else Map_get r k
  end.

Definition Map_has (m : Map V) (k : string) : bool :=
  match Map_get m k with Some _ => true | None => false end.

(** [set] overwrites in place, or appends a new entry at the end. *)
Fixpoint Map_set (m : Map V) (k : string) (v : V) : Map V :=
  match m with
  | [] => [(k, v)]
  | (k', v') :: r =>
      if decide (k' = k) then (k', v) :: r else (k', v') :: Map_set r k v
  end.

Fixpoint Map_delete (m : Map V) (k : string) : Map V :=
  match m with
  | [] => []
  | (k', v') :: r =>
      if decide (k' = k) then Map_delete r k else (k', v') :: Map_delete r k
  end.

Definition Map_keys (m : Map V) : list string := map fst m.
Definition Map_values (m : Map V) : list V := map snd m.
End MapOps.

(** [Array.prototype.sort(compare)].  The language requires the sort to be
    stable; for a comparator that is a consistent ordering the result is
    then determined, and a stable insertion sort computes it: an element
    goes in front of the first later element it does not compare greater
    than. *)
Section Sort.
Context {A : Type} (compare : A → A → Z).

Fixpoint sort_insert (x : A) (l : list A) : list A :=
  match l with
  | [] => [x]
  | y :: r =>
      if (compare x y <=? 0)%Z then x :: y :: r else y :: sort_insert x r
  end.

Fixpoint Array_sort (l : list A) : list A :=
  match l with
  | [] => []
  | x :: r => sort_insert x (Array_sort r)
  end.
End Sort.

(** The comparator [(a, b) => rank(b) - rank(a)]: higher rank first. *)
Definition byRankDesc {A : Type} (rank : A → Z) (a b : A) : Z :=
  (rank b - rank a)%Z.

End JS.

(* ===================================================================== *)
(** ** Shared shapes: errors, requests, responses, event records *)
(* ===================================================================== *)

Module Exn.

(** The [details] object the manager attaches to its exceptions. *)
Record Details : Type := {
  adapterName : option string;
  availableAdapters : option (list string);
}.

(** Thrown values: a plain [Error], or a [StorageConfigurationException]
    (code [STORAGE_CONFIGURATION_ERROR]) with its message and details. *)
Inductive Error : Type :=
| PlainError (message : string)
| StorageConfigurationException (message : string) (details : Details).

Definition message (e : Error) : string :=
  match e with
  | PlainError m => m
  | StorageConfigurationException m _ => m
  end.

Definition isConfigurationError (e : Error) : bool :=
  match e with
  | PlainError _ => false
  | StorageConfigurationException _ _ => true
  end.

(** Result of evaluating something that may throw. *)
Inductive Completion (A : Type) : Type :=
| Return (a : A)
| Throw (e : Error).
Arguments Return {A} a.
Arguments Throw {A} e.

End Exn.

Module Types.

Record StorageFile : Type := {
  filename : string;
  size : Z;
  mimeType : string;
  content : string;
}.

(** [StorageMetadata]: an object used as a string-keyed map. *)
Abbreviation StorageMetadata := (gmap string string).

Record UploadOptions : Type := {
  key : option string;
  public : option bool;
  contentType : option string;
  metadata : option StorageMetadata;
  expiresIn : option Z;
}.

(** The option objects of the other operations.  Their interfaces declare
    no [metadata]; interfaces being structural, the object handed over may
    still carry that property (an [UploadOptions] value is assignable to
    [DownloadOptions]), which the [_metadata] fields below record. *)
Record DownloadOptions : Type := {
  dl_expiresIn : option Z;
  forceDownload : option bool;
  dl_filename : option string;
  dl_metadata : option StorageMetadata;
}.

Record DeleteOptions : Type := {
  allVersions : option bool;
  del_metadata : option StorageMetadata;
}.

Record ListOptions : Type := {
  prefix : option string;
  maxKeys : option Z;
  continuationToken : option string;
  ls_metadata : option StorageMetadata;
}.

(** The arguments of one call of a wrapped operation. *)
Inductive Request : Type :=
| Upload (file : StorageFile) (options : option UploadOptions)
| Download (key : string) (options : option DownloadOptions)
| Delete (key : string) (options : option DeleteOptions)
| Get (key : string)
| List (options : option ListOptions)
| Exists (key : string).

Record StorageError : Type := { code : string; message : string }.

(** The response objects share [success] and [error]; the payload fields,
    which the wrapper never reads, are kept as one optional key and url. *)
Record Response : Type := {
  success : bool;
  r_key : option string;
  url : option string;
  error : option StorageError;
}.

End Types.

(* ===================================================================== *)
(** ** Notification bus: [StorageEventEmitter] *)
(* ===================================================================== *)

Module Bus.
Import Exn.

(** [enum StorageEvent] and the string each member stands for. *)
Inductive StorageEvent : Type :=
| BEFORE_UPLOAD | AFTER_UPLOAD_SUCCESS | UPLOAD_FAILED
| BEFORE_DOWNLOAD | AFTER_DOWNLOAD_SUCCESS | DOWNLOAD_FAILED
| BEFORE_DELETE | AFTER_DELETE_SUCCESS | DELETE_FAILED
| BEFORE_GET | AFTER_GET_SUCCESS | GET_FAILED
| BEFORE_LIST | AFTER_LIST_SUCCESS | LIST_FAILED
| BEFORE_EXISTS | AFTER_EXISTS_SUCCESS | EXISTS_FAILED.

Definition eventKey (event : StorageEvent) : string :=
  match event with
  | BEFORE_UPLOAD => "beforeUpload"
  | AFTER_UPLOAD_SUCCESS => "afterUploadSuccess"
  | UPLOAD_FAILED => "uploadFailed"
  | BEFORE_DOWNLOAD => "beforeDownload"
  | AFTER_DOWNLOAD_SUCCESS => "afterDownloadSuccess"
  | DOWNLOAD_FAILED => "downloadFailed"
  | BEFORE_DELETE => "beforeDelete"
  | AFTER_DELETE_SUCCESS => "afterDeleteSuccess"
  | DELETE_FAILED => "deleteFailed"
  | BEFORE_GET => "beforeGet"
  | AFTER_GET_SUCCESS => "afterGetSuccess"
  | GET_FAILED => "getFailed"
  | BEFORE_LIST => "beforeList"
  | AFTER_LIST_SUCCESS => "afterListSuccess"
  | LIST_FAILED => "listFailed"
  | BEFORE_EXISTS => "beforeExists"
  | AFTER_EXISTS_SUCCESS => "afterExistsSuccess"
  | EXISTS_FAILED => "existsFailed"
  end.

(** The event record handed to listeners.  [request] stands for the
    [file]/[key]/[options] fields; [response], [error] and [duration] are
    present on the success and failure records only. *)
Record EventData : Type := {
  adapterName : string;
  timestamp : Z;
  correlationId : string;
  request : Types.Request;
  response : option Types.Response;
  error : option Error;
  duration : option Z;
}.

(** What calling a listener [(data) => void | Promise<void>] comes to:
    it returns, it throws, or it returns a promise that is later fulfilled
    or rejected.  Listeners are taken not to call back into the bus. *)
Inductive Settled : Type :=
| Returned
| Thrown (e : Error)
| Fulfilled
| Rejected (e : Error).

(** A listener is a function object: [fn] is its identity (what a [Set]
    compares), [call] its behaviour. *)
Record EventListener : Type := {
  fn : nat;
  call : EventData → Settled;
}.

Definition same (l1 l2 : EventListener) : bool := Nat.eqb (fn l1) (fn l2).

(** [Set.prototype.add] and [delete], by identity, in insertion order. *)
Definition Set_add (s : list EventListener) (l : EventListener)
  : list EventListener :=
  if existsb (same l) s then s else s ++ [l].

Definition Set_delete (s : list EventListener) (l : EventListener)
  : list EventListener :=
  List.filter (fun l' => negb (same l l')) s.

(** The emitter: [listeners] maps an event key to the address of its set
    object in [heap].  Set objects are never reclaimed while a closure may
    still hold them. *)
Record StorageEventEmitter : Type := {
  heap : list (list EventListener);
  listeners : JS.Map nat;
}.

Definition empty : StorageEventEmitter := {| heap := []; listeners := [] |}.

(** The set object stored at an address (empty if the address is unused). *)
Definition deref (em : StorageEventEmitter) (a : nat) : list EventListener :=
  default [] (heap em !! a).

(** The closure returned by [on]: it captures the set object [listeners],
    the [listener] and the [eventKey]. *)
Record Unsubscribe : Type := {
  captured_set : nat;
  captured_listener : EventListener;
  captured_key : string;
}.

Definition on (em : StorageEventEmitter) (event : StorageEvent)
    (listener : EventListener) : StorageEventEmitter * Unsubscribe :=
  let k := eventKey event in
  let em1 :=
    if negb (JS.Map_has (listeners em) k)
    then {| heap := heap em ++ [[]];
            listeners := JS.Map_set (listeners em) k (length (heap em)) |}
    else em in
  let a := default 0 (JS.Map_get (listeners em1) k) in
  let em2 := {| heap := <[a := Set_add (deref em1 a) listener]> (heap em1);
                listeners := listeners em1 |} in
  (em2, {| captured_set := a; captured_listener := listener;
           captured_key := k |}).

(** Running the closure returned by [on]. *)
Definition unsubscribe (u : Unsubscribe) (em : StorageEventEmitter)
  : StorageEventEmitter :=
  let a := captured_set u in
  let s := Set_delete (deref em a) (captured_listener u) in
  let h := <[a := s]> (heap em) in
  if Nat.eqb (length s) 0
  then {| heap := h; listeners := JS.Map_delete (listeners em) (captured_key u) |}
  else {| heap := h; listeners := listeners em |}.

Definition off (em : StorageEventEmitter) (event : StorageEvent)
    (listener : EventListener) : StorageEventEmitter :=
  let k := eventKey event in
  match JS.Map_get (listeners em) k with
  | Some a =>
      let s := Set_delete (deref em a) listener in
      let h := <[a := s]> (heap em) in
      if Nat.eqb (length s) 0
      then {| heap := h; listeners := JS.Map_delete (listeners em) k |}
      else {| heap := h; listeners := listeners em |}
  | None => em
  end.

Definition removeAllListeners (em : StorageEventEmitter)
    (event : option StorageEvent) : StorageEventEmitter :=
  match event with
  | Some e => {| heap := heap em;
                 listeners := JS.Map_delete (listeners em) (eventKey e) |}
  | None => {| heap := heap em; listeners := [] |}
  end.

(** The listeners currently registered for an event, in the order [emit]
    calls them. *)
Definition registered (em : StorageEventEmitter) (event : StorageEvent)
  : list EventListener :=
  match JS.Map_get (listeners em) (eventKey event) with
  | Some a => deref em a
  | None => []
  end.

Definition listenerCount (em : StorageEventEmitter) (event : StorageEvent)
  : nat := length (registered em event).

Definition hasListeners (em : StorageEventEmitter) (event : StorageEvent)
  : bool := negb (Nat.eqb (listenerCount em event) 0).

Definition eventNames (em : StorageEventEmitter) : list string :=
  JS.Map_keys (listeners em).

(** One console line: the text and the value printed after it. *)
Definition ConsoleLine : Type := (string * option Error)%type.

(** [emit]'s [map] callback: a synchronous throw is caught, logged with
    [console.error], and replaced by a fulfilled promise. *)
Definition guarded (k : string) (s : Settled) : Settled * list ConsoleLine :=
  match s with
  | Thrown e => (Fulfilled, [("Error in event listener for " +:+ k +:+ ":", Some e)])
  | _ => (s, [])
  end.

(** [await Promise.all(promises)]: rejects with the reason of the first
    rejected promise, otherwise completes.  Promises are taken to settle
    in array order. *)
Fixpoint Promise_all (ps : list Settled) : Completion unit :=
  match ps with
  | [] => Return tt
  | Rejected e :: _ => Throw e
  | _ :: r => Promise_all r
  end.

(** [emit]: the completion of the awaited call and the lines it logs. *)
Definition emit (em : StorageEventEmitter) (event : StorageEvent)
    (data : EventData) : Completion unit * list ConsoleLine :=
  let k := eventKey event in
  match JS.Map_get (listeners em) k with
  | None => (Return tt, [])
  | Some a =>
      let ls := deref em a in
      if Nat.eqb (length ls) 0 then (Return tt, [])
      else
        let rs := map (fun l => guarded k (call l data)) ls in
        (Promise_all (map fst rs), concat (map snd rs))
  end.

(** The emitter is well formed when every entry of [listeners] points to an
    allocated set object and no two entries share one. *)
Definition wellFormed (em : StorageEventEmitter) : Prop :=
  ∀ k a, JS.Map_get (listeners em) k = Some a →
    a < length (heap em)
    ∧ ∀ k', JS.Map_get (listeners em) k' = Some a → k' = k.

(** A handle is current while the set it captured is still the one stored
    for its event. *)
Definition current (em : StorageEventEmitter) (u : Unsubscribe) : Prop :=
  JS.Map_get (listeners em) (captured_key u) = Some (captured_set u).

(** Predicates on listeners, used in the statements below.  A listener
    [rejects] a record when calling it yields a rejected promise; an event
    has [noRejection] when none of its listeners does so on any record. *)
Definition rejects (l : EventListener) (d : EventData) : bool :=
  match call l d with Rejected _ => true | _ => false end.

Definition noRejection (em : StorageEventEmitter) (event : StorageEvent) : Prop :=
  ∀ d, existsb (fun l => rejects l d) (registered em event) = false.

End Bus.

(* ===================================================================== *)
(** ** Instrumented operations: [BaseStorageAdapter] *)
(* ===================================================================== *)

Module Envelope.
Import Exn.
Import Types.
Import Bus.

(** What the surrounding runtime supplies: the value of the clock at its
    n-th reading ([Date.now()] and [new Date()]) and the n-th identifier
    returned by [uuidv4()]. *)
Record Runtime : Type := {
  clock : nat → Z;
  uuid : nat → string;
}.

(** The world an [async] method runs in.  [ticks] and [minted] count the
    readings of the clock and the ids drawn so far; [console] is what was
    logged.  [emitted] and [invoked] are observation logs: every call of
    [emit] made by a wrapper, and every call reaching the concrete backend
    (the spy of the tests). *)
Record World : Type := {
  ticks : nat;
  minted : nat;
  console : list ConsoleLine;
  emitted : list (StorageEvent * EventData);
  invoked : list Request;
}.

Definition M (A : Type) : Type := World → Completion A * World.

Definition ret {A} (a : A) : M A := fun w => (Return a, w).

Definition throw {A} (e : Error) : M A := fun w => (Throw e, w).

Definition bind {A B} (m : M A) (k : A → M B) : M B :=
  fun w =>
    match m w with
    | (Return a, w') => k a w'
    | (Throw e, w') => (Throw e, w')
    end.

(** [try { body } catch (error) { handler }] *)
Definition try_catch {A} (body : M A) (handler : Error → M A) : M A :=
  fun w =>
    match body w with
    | (Return a, w') => (Return a, w')
    | (Throw e, w') => handler e w'
    end.

Declare Scope js_scope.
Delimit Scope js_scope with js.
Notation "x <- m ;; k" := (bind m (fun x => k))
  (at level 100, m at next level, right associativity) : js_scope.
Notation "m ;; k" := (bind m (fun _ => k))
  (at level 100, right associativity) : js_scope.
Open Scope js_scope.

(** [Date.now()] / [new Date()] *)
Definition Date_now (rt : Runtime) : M Z :=
  fun w =>
    (Return (clock rt (ticks w)),
     {| ticks := S (ticks w); minted := minted w; console := console w;
        emitted := emitted w; invoked := invoked w |}).

(** [uuidv4()] *)
Definition uuidv4 (rt : Runtime) : M string :=
  fun w =>
    (Return (uuid rt (minted w)),
     {| ticks := ticks w; minted := S (minted w); console := console w;
        emitted := emitted w; invoked := invoked w |}).

(** The adapter object.  [perform] stands for the six abstract methods
    [performUpload] ... [performExists] of the concrete subclass, selected
    by the request; it may depend on the calls the backend has served. *)
Record BaseStorageAdapter : Type := {
  providerName : string;
  eventEmitter : StorageEventEmitter;
  perform : list Request → Request → Completion Response;
}.

Definition getProviderName (a : BaseStorageAdapter) : string := providerName a.
Definition getEventEmitter (a : BaseStorageAdapter) : StorageEventEmitter :=
  eventEmitter a.
Definition setEventEmitter (a : BaseStorageAdapter) (emitter : StorageEventEmitter)
  : BaseStorageAdapter :=
  {| providerName := providerName a; eventEmitter := emitter;
     perform := perform a |}.

(** [await this.eventEmitter.emit(event, data)] *)
Definition emit (a : BaseStorageAdapter) (event : StorageEvent) (data : EventData)
  : M unit :=
  fun w =>
    let '(c, lines) := Bus.emit (eventEmitter a) event data in
    (c, {| ticks := ticks w; minted := minted w;
           console := console w ++ lines;
           emitted := emitted w ++ [(event, data)];
           invoked := invoked w |}).

(** [await this.performXxx(...)] *)
Definition performOp (a : BaseStorageAdapter) (req : Request) : M Response :=
  fun w =>
    (perform a (invoked w) req,
     {| ticks := ticks w; minted := minted w; console := console w;
        emitted := emitted w; invoked := invoked w ++ [req] |}).

Definition beforeEvent (req : Request) : StorageEvent :=
  match req with
  | Upload _ _ => BEFORE_UPLOAD
  | Download _ _ => BEFORE_DOWNLOAD
  | Delete _ _ => BEFORE_DELETE
  | Get _ => BEFORE_GET
  | List _ => BEFORE_LIST
  | Exists _ => BEFORE_EXISTS
  end.

Definition successEvent (req : Request) : StorageEvent :=
  match req with
  | Upload _ _ => AFTER_UPLOAD_SUCCESS
  | Download _ _ => AFTER_DOWNLOAD_SUCCESS
  | Delete _ _ => AFTER_DELETE_SUCCESS
  | Get _ => AFTER_GET_SUCCESS
  | List _ => AFTER_LIST_SUCCESS
  | Exists _ => AFTER_EXISTS_SUCCESS
  end.

Definition failedEvent (req : Request) : StorageEvent :=
  match req with
  | Upload _ _ => UPLOAD_FAILED
  | Download _ _ => DOWNLOAD_FAILED
  | Delete _ _ => DELETE_FAILED
  | Get _ => GET_FAILED
  | List _ => LIST_FAILED
  | Exists _ => EXISTS_FAILED
  end.

Definition beforeData (a : BaseStorageAdapter) (ts : Z) (cid : string)
    (req : Request) : EventData :=
  {| adapterName := providerName a; timestamp := ts; correlationId := cid;
     request := req; response := None; error := None; duration := None |}.

Definition successData (a : BaseStorageAdapter) (ts : Z) (cid : string)
    (req : Request) (resp : Response) (d : Z) : EventData :=
  {| adapterName := providerName a; timestamp := ts; correlationId := cid;
     request := req; response := Some resp; error := None; duration := Some d |}.

Definition failedData (a : BaseStorageAdapter) (ts : Z) (cid : string)
    (req : Request) (err : Error) (d : Z) : EventData :=
  {| adapterName := providerName a; timestamp := ts; correlationId := cid;
     request := req; response := None; error := Some err; duration := Some d |}.

(** The body the six methods share from [const startTime = Date.now()] on;
    they differ in the event kinds, the payload fields and the backend
    method, all of which follow from the request. *)
Definition hooked (rt : Runtime) (a : BaseStorageAdapter) (req : Request)
    (correlationId : string) : M Response :=
  startTime <- Date_now rt ;;
  try_catch
    (ts <- Date_now rt ;;
     emit a (beforeEvent req) (beforeData a ts correlationId req) ;;
     response <- performOp a req ;;
     now <- Date_now rt ;;
     let duration := (now - startTime)%Z in
     ts' <- Date_now rt ;;
     emit a (successEvent req)
       (successData a ts' correlationId req response duration) ;;
     ret response)
    (fun error =>
       now <- Date_now rt ;;
       let duration := (now - startTime)%Z in
       ts <- Date_now rt ;;
       emit a (failedEvent req)
         (failedData a ts correlationId req error duration) ;;
       throw error).

(** [options?.metadata?.correlationId] *)
Definition suppliedCorrelationId (options : option UploadOptions) : option string :=
  o ← options; md ← metadata o; md !! "correlationId".

(** [upload]: [options?.metadata?.correlationId || uuidv4()] *)
Definition upload (rt : Runtime) (a : BaseStorageAdapter) (file : StorageFile)
    (options : option UploadOptions) : M Response :=
  correlationId <-
    match suppliedCorrelationId options with
    | Some supplied => if JS.truthy supplied then ret supplied else uuidv4 rt
    | None => uuidv4 rt
    end ;;
  hooked rt a (Upload file options) correlationId.

Definition download (rt : Runtime) (a : BaseStorageAdapter) (key : string)
    (options : option DownloadOptions) : M Response :=
  correlationId <- uuidv4 rt ;;
  hooked rt a (Download key options) correlationId.

Definition delete (rt : Runtime) (a : BaseStorageAdapter) (key : string)
    (options : option DeleteOptions) : M Response :=
  correlationId <- uuidv4 rt ;;
  hooked rt a (Delete key options) correlationId.

Definition get (rt : Runtime) (a : BaseStorageAdapter) (key : string)
  : M Response :=
  correlationId <- uuidv4 rt ;;
  hooked rt a (Get key) correlationId.

Definition list_ (rt : Runtime) (a : BaseStorageAdapter)
    (options : option ListOptions) : M Response :=
  correlationId <- uuidv4 rt ;;
  hooked rt a (List options) correlationId.

Definition exists_ (rt : Runtime) (a : BaseStorageAdapter) (key : string)
  : M Response :=
  correlationId <- uuidv4 rt ;;
  hooked rt a (Exists key) correlationId.

(** One call of any of the six wrapped operations. *)
Definition invoke (rt : Runtime) (a : BaseStorageAdapter) (req : Request)
  : M Response :=
  match req with
  | Upload file options => upload rt a file options
  | Download key options => download rt a key options
  | Delete key options => delete rt a key options
  | Get key => get rt a key
  | List options => list_ rt a options
  | Exists key => exists_ rt a key
  end.

(** The correlation id a caller hands over with a request, whatever the
    operation: the [correlationId] entry of the options' metadata. *)
Definition callerCorrelationId (req : Request) : option string :=
  match req with
  | Upload _ options => o ← options; md ← metadata o; md !! "correlationId"
  | Download _ options => o ← options; md ← dl_metadata o; md !! "correlationId"
  | Delete _ options => o ← options; md ← del_metadata o; md !! "correlationId"
  | List options => o ← options; md ← ls_metadata o; md !! "correlationId"
  | Get _ => None
  | Exists _ => None
  end.

(** The correlation id an invocation settles on before it reads
    [startTime]. *)
Definition correlationIdFor (rt : Runtime) (req : Request) : M string :=
  match req with
  | Upload _ options =>
      match suppliedCorrelationId options with
      | Some supplied => if JS.truthy supplied then ret supplied else uuidv4 rt
      | None => uuidv4 rt
      end
  | _ => uuidv4 rt
  end.

(** The events of one invocation: the pre-event followed by a success
    event, a failure event, or both, all carrying the correlation id [c]. *)
Definition lifecycle (req : Request) (c : string)
    (evs : list (StorageEvent * EventData)) : Prop :=
  ∃ d0 rest,
    evs = (beforeEvent req, d0) :: rest
    ∧ rest ≠ []
    ∧ Forall (fun ev => ev.1 = successEvent req ∨ ev.1 = failedEvent req) rest
    ∧ Forall (fun ev => correlationId ev.2 = c) evs.

Close Scope js_scope.
End Envelope.

(* ===================================================================== *)
(** ** Registry and fallback resolver: [StorageManager] *)
(* ===================================================================== *)

Module Manager.
Import Exn.

(** An adapter instance as the manager sees it: an object ([oid] is its
    identity) answering [getProviderName()] and [isReady()].  [isReady()]
    is a method of the adapter and need not give the same answer twice:
    [readiness n] is its answer once it has been called [n] times before
    in the course of the current call of a manager method. *)
Record IStorageAdapter : Type := {
  oid : nat;
  getProviderName : string;
  readiness : nat → bool;
}.

(** [adapter.isReady()], asked for the first time. *)
Definition isReady (adapter : IStorageAdapter) : bool := readiness adapter 0.

Abbreviation AdapterEnvConfig := (gmap string string).

Record AdapterConfig : Type := {
  name : string;
  config : AdapterEnvConfig;
  enabled : option bool;
  priority : option Z;
}.

Record StorageManagerConfig : Type := {
  cfg_adapters : list AdapterConfig;
  cfg_defaultAdapter : option string;
  cfg_enableFallback : option bool;
}.

(** A factory may throw instead of returning an instance. *)
Definition AdapterFactory : Type := AdapterEnvConfig → Completion IStorageAdapter.

Record StorageManager : Type := {
  adapters : JS.Map IStorageAdapter;
  factories : JS.Map AdapterFactory;
  adapterConfigs : JS.Map AdapterConfig;
  defaultAdapter : option string;
  enableFallback : bool;
}.

Definition ConsoleLine : Type := (string * option Error)%type.

(** [constructor(config?)] *)
Definition new (config : option StorageManagerConfig) : StorageManager :=
  match config with
  | Some c =>
      {| adapters := []; factories := [];
         adapterConfigs :=
           fold_left (fun acc adapterConfig =>
                        JS.Map_set acc (name adapterConfig) adapterConfig)
                     (cfg_adapters c) [];
         defaultAdapter := cfg_defaultAdapter c;
         enableFallback := default false (cfg_enableFallback c) |}
  | None =>
      {| adapters := []; factories := []; adapterConfigs := [];
         defaultAdapter := None; enableFallback := false |}
  end.

(** [config.enabled !== false] *)
Definition notDisabled (c : AdapterConfig) : bool :=
  match enabled c with Some false => false | _ => true end.

Definition registerFactory (m : StorageManager) (name : string)
    (factory : AdapterFactory) : StorageManager * list ConsoleLine :=
  let fs := JS.Map_set (factories m) (JS.toLowerCase name) factory in
  let m1 := {| adapters := adapters m; factories := fs;
               adapterConfigs := adapterConfigs m;
               defaultAdapter := defaultAdapter m;
               enableFallback := enableFallback m |} in
  match JS.Map_get (adapterConfigs m) (JS.toLowerCase name) with
  | Some c =>
      if notDisabled c then
        match factory (config c) with
        | Return adapter =>
            ({| adapters := JS.Map_set (adapters m) (JS.toLowerCase name) adapter;
                factories := fs; adapterConfigs := adapterConfigs m;
                defaultAdapter := defaultAdapter m;
                enableFallback := enableFallback m |}, [])
        | Throw error =>
            (m1, [("Failed to initialize adapter '" +:+ name +:+ "':", Some error)])
        end
      else (m1, [])
  | None => (m1, [])
  end.

Definition registerAdapter (m : StorageManager) (name : string)
    (adapter : IStorageAdapter) : StorageManager :=
  {| adapters := JS.Map_set (adapters m) (JS.toLowerCase name) adapter;
     factories := factories m; adapterConfigs := adapterConfigs m;
     defaultAdapter := defaultAdapter m; enableFallback := enableFallback m |}.

Definition notRegistered (m : StorageManager) (name : string) : Error :=
  StorageConfigurationException
    ("Storage adapter '" +:+ name +:+ "' is not registered or enabled")
    {| adapterName := Some name;
       availableAdapters := Some (JS.Map_keys (adapters m)) |}.

Definition notReady (name : string) : Error :=
  StorageConfigurationException
    ("Storage adapter '" +:+ name +:+ "' is not ready. Please check configuration.")
    {| adapterName := Some name; availableAdapters := None |}.

Definition getAdapter (m : StorageManager) (name : string)
  : Completion IStorageAdapter :=
  match JS.Map_get (adapters m) (JS.toLowerCase name) with
  | None => Throw (notRegistered m name)
  | Some adapter =>
      if negb (isReady adapter) then Throw (notReady name)
      else Return adapter
  end.

Definition getDefaultAdapter (m : StorageManager) : Completion IStorageAdapter :=
  if negb (JS.truthy_opt (defaultAdapter m)) then
    match JS.Map_values (adapters m) with
    | firstAdapter :: _ => Return firstAdapter
    | [] =>
        Throw (StorageConfigurationException
                 "No default adapter configured and no adapters available"
                 {| adapterName := None;
                    availableAdapters := Some (JS.Map_keys (adapters m)) |})
    end
  else getAdapter m (default "" (defaultAdapter m)).

(** [configX?.priority ?? 0] for the entry stored under a key of [adapters]. *)
Definition priorityOf (m : StorageManager) (key : string) : Z :=
  match JS.Map_get (adapterConfigs m) key with
  | Some c => default 0%Z (priority c)
  | None => 0%Z
  end.

Definition getSortedAdapters (m : StorageManager)
  : list (string * IStorageAdapter) :=
  JS.Array_sort
    (fun a b =>
       let priorityA := priorityOf m (fst a) in
       let priorityB := priorityOf m (fst b) in
       (priorityB - priorityA)%Z)
    (adapters m).

(** [getAdapterWithFallback] asks adapters [isReady()] several times, the
    same object possibly more than once.  [Asked] records the calls made so
    far, oldest first, by the identity of the object asked. *)
Definition Asked : Type := list nat.

Definition timesAsked (asked : Asked) (adapter : IStorageAdapter) : nat :=
  count_occ Nat.eq_dec asked (oid adapter).

(** [adapter.isReady()] after the calls [asked]. *)
Definition ask (asked : Asked) (adapter : IStorageAdapter) : bool * Asked :=
  (readiness adapter (timesAsked asked adapter), asked ++ [oid adapter]).

(** [this.getAdapter(name)] as it runs inside [getAdapterWithFallback],
    after the calls [asked]; called on its own it is [getAdapter]. *)
Definition getAdapterAsked (m : StorageManager) (name : string) (asked : Asked)
  : Completion IStorageAdapter * Asked :=
  match JS.Map_get (adapters m) (JS.toLowerCase name) with
  | None => (Throw (notRegistered m name), asked)
  | Some adapter =>
      let (ready, asked1) := ask asked adapter in
      if negb ready then (Throw (notReady name), asked1)
      else (Return adapter, asked1)
  end.

(** One of the first two steps of [getAdapterWithFallback]: either the
    method is left (by [return] or [throw]), or it goes on, having logged a
    warning or not. *)
Inductive Step : Type :=
| Leave (r : Completion (option IStorageAdapter))
| GoOn (log : list ConsoleLine).

(** [try { const adapter = this.getAdapter(n); if (adapter.isReady()) return
    adapter; } catch (error) { if (!this.enableFallback) throw error;
    console.warn(warning); }]: the adapter [getAdapter] returns is asked
    again, and nothing is thrown or logged when it then answers false. *)
Definition tryNamed (m : StorageManager) (n : string) (warning : string)
    (asked : Asked) : Step * Asked :=
  match getAdapterAsked m n asked with
  | (Return adapter, asked1) =>
      let (ready, asked2) := ask asked1 adapter in
      if ready then (Leave (Return (Some adapter)), asked2)
      else (GoOn [], asked2)
  | (Throw error, asked1) =>
      if negb (enableFallback m) then (Leave (Throw error), asked1)
      else (GoOn [(warning, None)], asked1)
  end.

(** [if (preferredAdapter) { ... }] *)
Definition preferredStep (m : StorageManager) (preferredAdapter : option string)
    (asked : Asked) : Step * Asked :=
  match preferredAdapter with
  | Some p =>
      if JS.truthy p then
        tryNamed m p
          ("Preferred adapter '" +:+ p +:+ "' not available, trying fallback")
          asked
      else (GoOn [], asked)
  | None => (GoOn [], asked)
  end.

(** [if (this.defaultAdapter && (!preferredAdapter || preferredAdapter !==
    this.defaultAdapter)) { ... }] *)
Definition defaultStep (m : StorageManager) (preferredAdapter : option string)
    (asked : Asked) : Step * Asked :=
  match defaultAdapter m with
  | Some d =>
      if JS.truthy d
         && (negb (JS.truthy_opt preferredAdapter)
             || negb (bool_decide (preferredAdapter = Some d)))
      then
        tryNamed m d
          ("Default adapter '" +:+ d +:+ "' not available, trying fallback")
          asked
      else (GoOn [], asked)
  | None => (GoOn [], asked)
  end.

(** The test of the fallback loop, after the calls [asked]:
    [adapter.isReady() && name !== preferredAdapter && name !== this.defaultAdapter].
    [isReady()] is the left operand, so every entry the loop reaches is
    asked. *)
Definition eligible (m : StorageManager) (preferredAdapter : option string)
    (asked : Asked) (entry : string * IStorageAdapter) : bool :=
  fst (ask asked (snd entry))
  && negb (bool_decide (Some (fst entry) = preferredAdapter))
  && negb (bool_decide (Some (fst entry) = defaultAdapter m)).

(** [for (const [name, adapter] of sortedAdapters) { if (...) return adapter }] *)
Fixpoint scan (m : StorageManager) (preferredAdapter : option string)
    (entries : list (string * IStorageAdapter)) (asked : Asked)
  : option (string * IStorageAdapter) * Asked :=
  match entries with
  | [] => (None, asked)
  | entry :: rest =>
      if eligible m preferredAdapter asked entry
      then (Some entry, snd (ask asked (snd entry)))
      else scan m preferredAdapter rest (snd (ask asked (snd entry)))
  end.

(** [getAdapterWithFallback], together with the [isReady()] calls it made. *)
Definition getAdapterWithFallbackAsked (m : StorageManager)
    (preferredAdapter : option string)
  : (Completion (option IStorageAdapter) * list ConsoleLine) * Asked :=
  match preferredStep m preferredAdapter [] with
  | (Leave r, asked1) => ((r, []), asked1)
  | (GoOn log1, asked1) =>
      match defaultStep m preferredAdapter asked1 with
      | (Leave r, asked2) => ((r, log1), asked2)
      | (GoOn log2, asked2) =>
          if enableFallback m then
            match scan m preferredAdapter (getSortedAdapters m) asked2 with
            | (Some (key, adapter), asked3) =>
                ((Return (Some adapter),
                  log1 ++ log2 ++ [("Using fallback adapter: " +:+ key, None)]),
                 asked3)
            | (None, asked3) => ((Return None, log1 ++ log2), asked3)
            end
          else ((Return None, log1 ++ log2), asked2)
      end
  end.

(** What [getAdapterWithFallback] returns or throws, and what it logs. *)
Definition getAdapterWithFallback (m : StorageManager)
    (preferredAdapter : option string)
  : Completion (option IStorageAdapter) * list ConsoleLine :=
  fst (getAdapterWithFallbackAsked m preferredAdapter).

(** The calls made by the two named steps, that is, before the loop. *)
Definition askedBeforeScan (m : StorageManager) (preferredAdapter : option string)
  : Asked :=
  snd (defaultStep m preferredAdapter (snd (preferredStep m preferredAdapter []))).

(** The calls made when the loop reaches the entry at index [i]. *)
Definition turn (asked : Asked) (entries : list (string * IStorageAdapter))
    (i : nat) : Asked :=
  asked ++ map (fun entry => oid (snd entry)) (take i entries).

Definition getAvailableAdapters (m : StorageManager) : list string :=
  JS.Map_keys (adapters m).

Definition getReadyAdapters (m : StorageManager) : list string :=
  map fst (List.filter (fun e => isReady (snd e)) (adapters m)).

Definition hasAdapter (m : StorageManager) (name : string) : bool :=
  JS.Map_has (adapters m) (JS.toLowerCase name).

Definition isAdapterReady (m : StorageManager) (name : string) : bool :=
  match JS.Map_get (adapters m) (JS.toLowerCase name) with
  | Some adapter => isReady adapter
  | None => false
  end.

Definition setDefaultAdapter (m : StorageManager) (name : string)
  : Completion StorageManager :=
  if negb (hasAdapter m name) then
    Throw (StorageConfigurationException
             ("Cannot set '" +:+ name +:+ "' as default adapter. Adapter not registered.")
             {| adapterName := Some name;
                availableAdapters := Some (getAvailableAdapters m) |})
  else
    Return {| adapters := adapters m; factories := factories m;
              adapterConfigs := adapterConfigs m;
              defaultAdapter := Some (JS.toLowerCase name);
              enableFallback := enableFallback m |}.

Definition setFallbackEnabled (m : StorageManager) (enabled : bool)
  : StorageManager :=
  {| adapters := adapters m; factories := factories m;
     adapterConfigs := adapterConfigs m; defaultAdapter := defaultAdapter m;
     enableFallback := enabled |}.

Definition removeAdapter (m : StorageManager) (name : string) : StorageManager :=
  {| adapters := JS.Map_delete (adapters m) (JS.toLowerCase name);
     factories := JS.Map_delete (factories m) (JS.toLowerCase name);
     adapterConfigs := JS.Map_delete (adapterConfigs m) (JS.toLowerCase name);
     defaultAdapter :=
       if bool_decide (defaultAdapter m = Some (JS.toLowerCase name))
       then None else defaultAdapter m;
     enableFallback := enableFallback m |}.

Definition clear (m : StorageManager) : StorageManager :=
  {| adapters := []; factories := []; adapterConfigs := [];
     defaultAdapter := None; enableFallback := enableFallback m |}.

End Manager.

(* ===================================================================== *)
(** ** Concrete inputs used in the examples below *)
(* ===================================================================== *)

Module Sample.
Import Exn.
Import Types.

(** A runtime whose clock advances 5 ms per reading and whose id source
    never repeats. *)
Definition runtime : Envelope.Runtime :=
  {| Envelope.clock := fun n => (1000 + 5 * Z.of_nat n)%Z;
     Envelope.uuid := fun n => "uuid-" +:+ pretty n |}.

Definition world0 : Envelope.World :=
  {| Envelope.ticks := 0; Envelope.minted := 0; Envelope.console := [];
     Envelope.emitted := []; Envelope.invoked := [] |}.

Definition file : StorageFile :=
  {| filename := "large-file.txt"; size := 6291456; mimeType := "text/plain";
     content := "" |}.

Definition stored : Response :=
  {| success := true; r_key := Some "large-file.txt";
     url := Some "/uploads/large-file.txt"; error := None |}.

(** A backend whose every operation succeeds with [stored]. *)
Definition okBackend (_ : list Request) (_ : Request) : Completion Response :=
  Return stored.

Definition backendDown : Error := PlainError "ECONNREFUSED".

(** A backend whose every operation throws [backendDown]. *)
Definition failingBackend (_ : list Request) (_ : Request) : Completion Response :=
  Throw backendDown.

Definition tooLarge : Error :=
  PlainError "File size 6291456 bytes exceeds maximum allowed size 5242880 bytes".

Definition hookFailed : Error := PlainError "webhook unreachable".

(** [(data) => { throw tooLarge }]: throws synchronously, like the
    validation interceptor of the examples. *)
Definition throwingValidator (id : nat) : Bus.EventListener :=
  {| Bus.fn := id; Bus.call := fun _ => Bus.Thrown tooLarge |}.

(** [async (data) => { throw tooLarge }]: returns a rejected promise. *)
Definition rejectingValidator (id : nat) : Bus.EventListener :=
  {| Bus.fn := id; Bus.call := fun _ => Bus.Rejected tooLarge |}.

(** [async (data) => { await notifyWebhook(data) }] with a failing hook. *)
Definition rejectingNotifier (id : nat) : Bus.EventListener :=
  {| Bus.fn := id; Bus.call := fun _ => Bus.Rejected hookFailed |}.

Definition throwingNotifier (id : nat) : Bus.EventListener :=
  {| Bus.fn := id; Bus.call := fun _ => Bus.Thrown hookFailed |}.

Definition logger (id : nat) : Bus.EventListener :=
  {| Bus.fn := id; Bus.call := fun _ => Bus.Returned |}.

(** Subscribe a list of (event, listener) pairs, in order. *)
Definition subscribeAll (subs : list (Bus.StorageEvent * Bus.EventListener))
  : Bus.StorageEventEmitter :=
  fold_left (fun em s => fst (Bus.on em (fst s) (snd s))) subs Bus.empty.

Definition adapterWith (subs : list (Bus.StorageEvent * Bus.EventListener))
    (backend : list Request → Request → Completion Response)
  : Envelope.BaseStorageAdapter :=
  {| Envelope.providerName := "local";
     Envelope.eventEmitter := subscribeAll subs;
     Envelope.perform := backend |}.

(** A throwing validator on each of the six 'before' events. *)
Definition guardedBySyncValidators : Envelope.BaseStorageAdapter :=
  adapterWith
    [(Bus.BEFORE_UPLOAD, throwingValidator 1);
     (Bus.BEFORE_DOWNLOAD, throwingValidator 2);
     (Bus.BEFORE_DELETE, throwingValidator 3);
     (Bus.BEFORE_GET, throwingValidator 4);
     (Bus.BEFORE_LIST, throwingValidator 5);
     (Bus.BEFORE_EXISTS, throwingValidator 6)]
    okBackend.

Definition guardedByAsyncValidator : Envelope.BaseStorageAdapter :=
  adapterWith [(Bus.BEFORE_UPLOAD, rejectingValidator 1)] okBackend.

Definition notifiedOnSuccess : Envelope.BaseStorageAdapter :=
  adapterWith [(Bus.AFTER_UPLOAD_SUCCESS, rejectingNotifier 1)] okBackend.



Definition syncNotifiedDown : Envelope.BaseStorageAdapter :=
  adapterWith [(Bus.UPLOAD_FAILED, throwingNotifier 1)] failingBackend.

Definition plain : Envelope.BaseStorageAdapter := adapterWith [] okBackend.

(** Options carrying [metadata: { correlationId: "trace-42" }]. *)
Definition traced : gmap string string := {[ "correlationId" := "trace-42" ]}.

Definition uploadTraced : option UploadOptions :=
  Some {| key := None; public := None; contentType := None;
          metadata := Some traced; expiresIn := None |}.

Definition downloadTraced : option DownloadOptions :=
  Some {| dl_expiresIn := Some 60%Z; forceDownload := None;
          dl_filename := None; dl_metadata := Some traced |}.

(** The six requests of the examples. *)
Definition sixRequests : list Request :=
  [Upload file None; Download "a.txt" None; Delete "a.txt" None;
   Get "a.txt"; List None; Exists "a.txt"].

(** Registry inputs. *)
Definition instance (id : nat) (provider : string) (ready : bool)
  : Manager.IStorageAdapter :=
  {| Manager.oid := id; Manager.getProviderName := provider;
     Manager.readiness := fun _ => ready |}.


Definition configOf (n : string) (en : option bool) (prio : option Z)
  : Manager.AdapterConfig :=
  {| Manager.name := n; Manager.config := ∅; Manager.enabled := en;
     Manager.priority := prio |}.

(** Two adapters of priority 2, registered as B then A, fallback enabled,
    default name "main" (never registered). *)
Definition tied : Manager.StorageManager :=
  let m0 := Manager.new (Some {|
      Manager.cfg_adapters := [configOf "a" (Some true) (Some 2%Z);
                               configOf "b" (Some true) (Some 2%Z)];
      Manager.cfg_defaultAdapter := Some "main";
      Manager.cfg_enableFallback := Some true |}) in
  Manager.registerAdapter
    (Manager.registerAdapter m0 "B" (instance 1 "B" true))
    "A" (instance 2 "A" true).

(** A configuration whose adapter name is written in upper case. *)
Definition upperCaseConfig : Manager.StorageManagerConfig :=
  {| Manager.cfg_adapters := [configOf "S3" (Some true) (Some 1%Z)];
     Manager.cfg_defaultAdapter := None;
     Manager.cfg_enableFallback := None |}.

Definition lowerCaseConfig : Manager.StorageManagerConfig :=
  {| Manager.cfg_adapters := [configOf "s3" (Some true) (Some 1%Z)];
     Manager.cfg_defaultAdapter := None;
     Manager.cfg_enableFallback := None |}.

Definition s3Factory : Manager.AdapterFactory :=
  fun _ => Return (instance 7 "s3" true).

(** No fallback, an adapter that is registered but not ready. *)
Definition strict : Manager.StorageManager :=
  Manager.registerAdapter
    (Manager.registerAdapter (Manager.new None) "s3" (instance 1 "s3" false))
    "local" (instance 2 "local" true).



(** Priorities 5 and 1 configured for the names [big] and "a"; fallback
    enabled, no default; both adapters registered and ready, the one of
    priority 1 first. *)
Definition rankedConfig (big : string) : Manager.StorageManagerConfig :=
  {| Manager.cfg_adapters := [configOf big (Some true) (Some 5%Z);
                              configOf "a" (Some true) (Some 1%Z)];
     Manager.cfg_defaultAdapter := None;
     Manager.cfg_enableFallback := Some true |}.

Definition ranked (big : string) : Manager.StorageManager :=
  Manager.registerAdapter
    (Manager.registerAdapter (Manager.new (Some (rankedConfig big)))
       "a" (instance 1 "a" true))
    "B" (instance 2 "b" true).

(** Two listeners subscribed to uploads, one to failed gets. *)
Definition heard : Bus.StorageEventEmitter :=
  subscribeAll [(Bus.BEFORE_UPLOAD, logger 1); (Bus.BEFORE_UPLOAD, logger 2);
                (Bus.GET_FAILED, logger 3)].

(** A validator rejecting every delete. *)
Definition guardedDelete : Envelope.BaseStorageAdapter :=
  adapterWith [(Bus.BEFORE_DELETE, rejectingValidator 1)] okBackend.

(** A validator rejecting every download, and a notifier of failed
    downloads whose webhook is unreachable. *)
Definition guardedAndNotified : Envelope.BaseStorageAdapter :=
  adapterWith
    [(Bus.BEFORE_DOWNLOAD, rejectingValidator 1);
     (Bus.DOWNLOAD_FAILED, rejectingNotifier 2)]
    okBackend.

End Sample.

(* ===================================================================== *)
(** ** Invariants and further inputs *)
(* ===================================================================== *)

Module Invariants.

(** The keys under which the manager stores adapters are lower-case and
    pairwise distinct. *)
Definition keysNormal (m : Manager.StorageManager) : Prop :=
  Forall (fun k => JS.toLowerCase k = k) (JS.Map_keys (Manager.adapters m))
  ∧ NoDup (JS.Map_keys (Manager.adapters m)).

(** Every entry of the emitter's map points to a set that holds at least
    one listener. *)
Definition nonEmptySets (em : Bus.StorageEventEmitter) : Prop :=
  ∀ k a, JS.Map_get (Bus.listeners em) k = Some a → Bus.deref em a ≠ [].

(** The state the emitter is meant to be in. *)
Definition sound (em : Bus.StorageEventEmitter) : Prop :=
  Bus.wellFormed em ∧ nonEmptySets em.

(** A handle belongs to an emitter when the set it captured is allocated
    there and is stored, if at all, under the handle's own key. *)
Definition issued (em : Bus.StorageEventEmitter) (u : Bus.Unsubscribe) : Prop :=
  Bus.captured_set u < length (Bus.heap em)
  ∧ ∀ k, JS.Map_get (Bus.listeners em) k = Some (Bus.captured_set u) →
         k = Bus.captured_key u.

(** A listener that throws synchronously on a record. *)
Definition throws (l : Bus.EventListener) (d : Bus.EventData) : bool :=
  match Bus.call l d with Bus.Thrown _ => true | _ => false end.

(** The priority configured for an adapter, in the words of the registry's
    description: the [priority] of the configuration record supplied for
    its name, names being compared without regard to letter case (the last
    such record if there are several), and zero when there is no record or
    the record gives no priority. *)
Definition configuredPriority (cfg : Manager.StorageManagerConfig)
    (adapterName : string) : Z :=
  match List.find
          (fun c => bool_decide (JS.toLowerCase (Manager.name c)
                                 = JS.toLowerCase adapterName))
          (rev (Manager.cfg_adapters cfg)) with
  | Some c => default 0%Z (Manager.priority c)
  | None => 0%Z
  end.

(** What the fallback loop is to look for, after the calls [asked]: an
    adapter that answers ready and is named neither like the preferred nor
    like the default adapter. *)
Definition accepted (m : Manager.StorageManager) (preferredAdapter : option string)
    (asked : Manager.Asked) (entry : string * Manager.IStorageAdapter) : Prop :=
  Manager.readiness (snd entry) (Manager.timesAsked asked (snd entry)) = true
  ∧ Some (fst entry) ≠ preferredAdapter
  ∧ Some (fst entry) ≠ Manager.defaultAdapter m.

Definition refused (m : Manager.StorageManager) (preferredAdapter : option string)
    (asked : Manager.Asked) (entry : string * Manager.IStorageAdapter) : Prop :=
  Manager.readiness (snd entry) (Manager.timesAsked asked (snd entry)) = false
  ∨ Some (fst entry) = preferredAdapter
  ∨ Some (fst entry) = Manager.defaultAdapter m.

(** The name of the wrapped method as it appears inside the names of its
    'before' and 'after' events. *)
Definition methodStem (req : Types.Request) : string :=
  match req with
  | Types.Upload _ _ => "Upload"
  | Types.Download _ _ => "Download"
  | Types.Delete _ _ => "Delete"
  | Types.Get _ => "Get"
  | Types.List _ => "List"
  | Types.Exists _ => "Exists"
  end.

(** The name of the wrapped method a request stands for. *)
Definition methodName (req : Types.Request) : string :=
  match req with
  | Types.Upload _ _ => "upload"
  | Types.Download _ _ => "download"
  | Types.Delete _ _ => "delete"
  | Types.Get _ => "get"
  | Types.List _ => "list"
  | Types.Exists _ => "exists"
  end.

End Invariants.


(* ===================================================================== *)
(** ** String utilities used by the concrete adapters: [utils/index.ts] *)
(* ===================================================================== *)

Module Utils.

(** Strings are sequences of code units (8-bit ones here: the functions
    below treat every code unit above 127 alike); the regular expressions
    of the source are spelled out as the character-level functions they
    denote. *)

(** [s.startsWith(p)], [s.endsWith(p)], [s.includes(p)] *)
Definition startsWith (s p : string) : bool := String.prefix p s.

Fixpoint endsWith (s p : string) : bool :=
  String.eqb s p
  || match s with
     | EmptyString => false
     | String _ r => endsWith r p
     end.

Fixpoint includes (s p : string) : bool :=
  String.prefix p s
  || match s with
     | EmptyString => false
     | String _ r => includes r p
     end.

(** [s.replace(/x/g, y)] for single characters [x] and [y]. *)
Fixpoint replaceChar (x y : ascii) (s : string) : string :=
  match s with
  | EmptyString => EmptyString
  | String c r => String (if decide (c = x) then y else c) (replaceChar x y r)
  end.

(** [s.replace(/x+/g, x)], which is also [s.replace(/x{2,}/g, x)]: every
    run of [x] becomes a single [x]. *)
Fixpoint collapse (x : ascii) (s : string) : string :=
  match s with
  | EmptyString => EmptyString
  | String c r =>
      if decide (c = x) then
        match r with
        | String c' _ =>
            if decide (c' = x) then collapse x r else String c (collapse x r)
        | EmptyString => String c EmptyString
        end
      else String c (collapse x r)
  end.

(** The backslash character (code 92). *)
Definition backslash : ascii := ascii_of_nat 92.

(** [normalizePath]: first every backslash becomes a slash, then every run
    of slashes becomes one slash. *)
Definition normalizePath (path : string) : string :=
  collapse "/" (replaceChar backslash "/" path).

(** The complement of the class [[^a-z0-9._-]] under the [i] flag. *)
Definition safeChar (c : ascii) : bool :=
  let n := nat_of_ascii c in
  ((48 <=? n) && (n <=? 57) || (65 <=? n) && (n <=? 90)
   || (97 <=? n) && (n <=? 122)
   || (n =? 46) || (n =? 95) || (n =? 45))%nat.

(** [s.replace(/[^a-z0-9._-]/gi, '_')] *)
Fixpoint maskUnsafe (s : string) : string :=
  match s with
  | EmptyString => EmptyString
  | String c r => String (if safeChar c then c else "_"%char) (maskUnsafe r)
  end.

(** [s.replace(/^_|_$/g, '')]: one underscore is dropped at the start and
    one at the end. *)
Definition dropLeading (s : string) : string :=
  match s with
  | String c r => if decide (c = "_"%char) then r else s
  | EmptyString => EmptyString
  end.

Fixpoint dropTrailing (s : string) : string :=
  match s with
  | EmptyString => EmptyString
  | String c EmptyString => if decide (c = "_"%char) then EmptyString else s
  | String c r => String c (dropTrailing r)
  end.

Definition sanitizeFilename (filename : string) : string :=
  dropTrailing (dropLeading (collapse "_" (maskUnsafe filename))).

(** [isValidKey] *)
Definition isValidKey (key : string) : bool :=
  JS.truthy key
  && (0 <? String.length key)%nat
  && negb (startsWith key "/")
  && negb (endsWith key "/")
  && negb (includes key "//").

(** [s.split(sep)] for a one-character separator: never empty. *)
Fixpoint split (sep : ascii) (s : string) : list string :=
  match s with
  | EmptyString => [EmptyString]
  | String c r =>
      if decide (c = sep) then EmptyString :: split sep r
      else match split sep r with
           | h :: t => String c h :: t
           | [] => [String c EmptyString]
           end
  end.

Definition getFileExtension (filename : string) : string :=
  let parts := split "." filename in
  if (1 <? length parts)%nat then List.last parts EmptyString else EmptyString.

(** The two-character string [xx]. *)
Definition twice (x : ascii) : string := String x (String x EmptyString).

(** The test "is not the character [x]". *)
Definition isNot (x c : ascii) : bool := negb (bool_decide (c = x)).

(** Every character of the string satisfies the test. *)
Fixpoint allChars (p : ascii → bool) (s : string) : bool :=
  match s with
  | EmptyString => true
  | String c r => p c && allChars p r
  end.

End Utils.

(* ===================================================================== *)
(** ** One-shot listeners: [StorageEventEmitter.once] *)
(* ===================================================================== *)

Module OneShot.
Import Bus.

(** The wrapper [once] builds around a listener.  It is an [async]
    function: whatever the listener does, throwing synchronously included,
    shows as the settlement of the promise the wrapper returns.  [wid] is
    the identity of the wrapper as a function object. *)
Definition wrap (wid : nat) (listener : EventListener) : EventListener :=
  {| fn := wid;
     call := fun data =>
       match call listener data with
       | Returned | Fulfilled => Fulfilled
       | Thrown e | Rejected e => Rejected e
       end |}.

(** An emitter together with the wrappers created on it: the identity of
    each wrapper and the handle it invokes first thing when called. *)
Record Emitter : Type := {
  bus : StorageEventEmitter;
  shots : list (nat * Unsubscribe);
}.

Definition once (o : Emitter) (event : StorageEvent) (listener : EventListener)
    (wid : nat) : Emitter * Unsubscribe :=
  let r := on (bus o) event (wrap wid listener) in
  ({| bus := r.1; shots := (wid, r.2) :: shots o |}, r.2).

Definition handleOf (o : Emitter) (l : EventListener) : option Unsubscribe :=
  snd <$> List.find (fun p => Nat.eqb p.1 (fn l)) (shots o).

(** The emitter after the listeners of a snapshot have been called one by
    one: each wrapper among them has run its handle. *)
Definition afterCalls (o : Emitter) (called : list EventListener)
  : StorageEventEmitter :=
  fold_left
    (fun em l => match handleOf o l with
                 | Some u => unsubscribe u em
                 | None => em
                 end)
    called (bus o).

(** [emit] in the presence of wrappers: what the awaited call comes to, and
    the emitter it leaves behind. *)
Definition emit (o : Emitter) (event : StorageEvent) (data : EventData)
  : (Exn.Completion unit * list ConsoleLine) * Emitter :=
  (Bus.emit (bus o) event data,
   {| bus := afterCalls o (registered (bus o) event); shots := shots o |}).

End OneShot.

(* ===================================================================== *)
(** * Properties *)
(* ===================================================================== *)

(** ** Maps and sorting *)

Module JSFacts.
Import JS.

Section MapFacts.
Context {V : Type}.
Implicit Types (m : Map V) (k : string) (v : V).

Lemma Map_get_set_eq m k v : Map_get (Map_set m k v) k = Some v.
Proof.
  induction m as [|[k' v'] r IH]; simpl.
  - by rewrite decide_True.
  - destruct (decide (k' = k)) as [->|Hne]; simpl.
    + by rewrite decide_True.
    + by rewrite decide_False.
Qed.

Lemma Map_get_set_ne m k k' v :
  k ≠ k' → Map_get (Map_set m k v) k' = Map_get m k'.
Proof.
  intros Hne. induction m as [|[k0 v0] r IH]; simpl.
  - by rewrite decide_False.
  - destruct (decide (k0 = k)) as [->|Hk]; simpl.
    + by rewrite !decide_False.
    + destruct (decide (k0 = k')); [done | apply IH].
Qed.

Lemma Map_get_delete_eq m k : Map_get (Map_delete m k) k = None.
Proof.
  induction m as [|[k' v'] r IH]; simpl; [done|].
  destruct (decide (k' = k)); simpl; [done|]. by rewrite decide_False.
Qed.

Lemma Map_get_delete_ne m k k' :
  k ≠ k' → Map_get (Map_delete m k) k' = Map_get m k'.
Proof.
  intros Hne. induction m as [|[k0 v0] r IH]; simpl; [done|].
  destruct (decide (k0 = k)) as [->|Hk]; simpl.
  - by rewrite decide_False.
  - by rewrite IH.
Qed.

End MapFacts.

(** Sorting with the comparator [(a, b) => rank(b) - rank(a)]. *)
Section SortFacts.
Context {A : Type} (rank : A → Z).
Local Abbreviation byRankDesc := (JS.byRankDesc rank).

Lemma sort_insert_perm x (l : list A) :
  sort_insert byRankDesc x l ≡ₚ x :: l.
Proof.
  induction l as [|y r IH]; simpl; [done|].
  destruct (byRankDesc x y <=? 0)%Z; [done|].
  rewrite IH. apply Permutation_swap.
Qed.

Lemma Array_sort_perm (l : list A) : Array_sort byRankDesc l ≡ₚ l.
Proof.
  induction l as [|x r IH]; simpl; [done|].
  by rewrite sort_insert_perm, IH.
Qed.

Lemma sort_insert_sorted x (l : list A) :
  StronglySorted (λ a b, (rank b ≤ rank a)%Z) l →
  StronglySorted (λ a b, (rank b ≤ rank a)%Z) (sort_insert byRankDesc x l).
Proof.
  induction 1 as [|y r Hs IH Hy]; simpl.
  - repeat constructor.
  - unfold JS.byRankDesc at 1.
    destruct (Z.leb_spec (rank y - rank x) 0) as [Hle|Hgt].
    + constructor; [by constructor|].
      constructor; [lia|].
      eapply Forall_impl; [exact Hy|]. simpl. intros; lia.
    + constructor; [done|].
      rewrite sort_insert_perm. constructor; [lia | done].
Qed.

Lemma Array_sort_sorted (l : list A) :
  StronglySorted (λ a b, (rank b ≤ rank a)%Z) (Array_sort byRankDesc l).
Proof.
  induction l as [|x r IH]; simpl; [constructor|].
  by apply sort_insert_sorted.
Qed.

(** Stability: elements of one rank keep their relative order. *)
Lemma sort_insert_stable z x (l : list A) :
  filter (λ a, rank a = z) (sort_insert byRankDesc x l)
  = filter (λ a, rank a = z) (x :: l).
Proof.
  induction l as [|y r IH]; simpl; [done|].
  unfold JS.byRankDesc at 1.
  destruct (Z.leb_spec (rank y - rank x) 0) as [Hle|Hgt]; [done|].
  rewrite (filter_cons _ y), IH, !filter_cons.
  repeat case_decide; try done; lia.
Qed.

Lemma Array_sort_stable z (l : list A) :
  filter (λ a, rank a = z) (Array_sort byRankDesc l)
  = filter (λ a, rank a = z) l.
Proof.
  induction l as [|x r IH]; simpl; [done|].
  by rewrite sort_insert_stable, !filter_cons, IH.
Qed.

End SortFacts.
End JSFacts.

(** ** The registry *)

Module ManagerFacts.
Import Exn.
Import Manager.
Import Invariants.

Lemma getSortedAdapters_eq (m : StorageManager) :
  getSortedAdapters m
  = JS.Array_sort (JS.byRankDesc (λ e, priorityOf m e.1)) (adapters m).
Proof. reflexivity. Qed.


Lemma getAdapter_returns (m : StorageManager) (n : string) (a : IStorageAdapter) :
  getAdapter m n = Return a →
  JS.Map_get (adapters m) (JS.toLowerCase n) = Some a ∧ isReady a = true.
Proof.
  unfold getAdapter.
  destruct (JS.Map_get (adapters m) (JS.toLowerCase n)) as [a'|]; [|done].
  destruct (isReady a') eqn:Hr; simpl; intros [= <-]. done.
Qed.

Lemma timesAsked_once (asked : Asked) (a : IStorageAdapter) :
  timesAsked (asked ++ [oid a]) a = S (timesAsked asked a).
Proof.
  unfold timesAsked. rewrite count_occ_app. simpl.
  destruct (Nat.eq_dec (oid a) (oid a)); [lia | done].
Qed.

(** Called on its own, the method asks an adapter that has not been asked. *)
Lemma getAdapterAsked_fresh (m : StorageManager) (n : string) :
  (getAdapterAsked m n []).1 = getAdapter m n.
Proof.
  unfold getAdapterAsked, getAdapter, ask, isReady.
  destruct (JS.Map_get (adapters m) (JS.toLowerCase n)) as [a|]; [|done].
  unfold timesAsked. simpl. by destruct (readiness a 0).
Qed.


Lemma getAdapterAsked_returns (m : StorageManager) (n : string)
    (asked asked' : Asked) (a : IStorageAdapter) :
  getAdapterAsked m n asked = (Return a, asked') →
  JS.Map_get (adapters m) (JS.toLowerCase n) = Some a
  ∧ readiness a (timesAsked asked a) = true ∧ asked' = asked ++ [oid a].
Proof.
  unfold getAdapterAsked, ask.
  destruct (JS.Map_get (adapters m) (JS.toLowerCase n)) as [a'|]; [|done].
  destruct (readiness a' (timesAsked asked a')) eqn:Hr; simpl; [|done].
  by intros [= <- <-].
Qed.


(** A named step whose [getAdapter] returns, at the start of the resolver:
    the adapter is asked a second time, and is returned only if it then
    answers true. *)
Lemma tryNamed_return (m : StorageManager) (n w : string) (a : IStorageAdapter) :
  getAdapter m n = Return a →
  tryNamed m n w []
  = (if readiness a 1 then Leave (Return (Some a)) else GoOn [], [oid a; oid a]).
Proof.
  rewrite <- getAdapterAsked_fresh. unfold tryNamed. intros Hg.
  destruct (getAdapterAsked m n []) as [c asked1] eqn:Hga. simpl in Hg. subst c.
  apply getAdapterAsked_returns in Hga as (_ & _ & ->).
  unfold ask. rewrite timesAsked_once. unfold timesAsked. simpl.
  by destruct (readiness a 1).
Qed.

Lemma eligible_accepted (m : StorageManager) (pref : option string)
    (asked : Asked) (e : string * IStorageAdapter) :
  eligible m pref asked e = true ↔ accepted m pref asked e.
Proof.
  unfold eligible, accepted, ask. simpl.
  rewrite !andb_true_iff, !negb_true_iff, !bool_decide_eq_false. tauto.
Qed.

Lemma eligible_refused (m : StorageManager) (pref : option string)
    (asked : Asked) (e : string * IStorageAdapter) :
  eligible m pref asked e = false ↔ refused m pref asked e.
Proof.
  unfold eligible, refused, ask. simpl.
  rewrite !andb_false_iff, !negb_false_iff, !bool_decide_eq_true. tauto.
Qed.

(** Names differing only in letter case reach the same registered adapter. *)
Lemma registered_under_any_casing (m : StorageManager) (n n' : string)
    (a : IStorageAdapter) :
  JS.toLowerCase n = JS.toLowerCase n' → isReady a = true →
  getAdapter (registerAdapter m n a) n' = Return a.
Proof.
  intros Hc Hr. unfold getAdapter, registerAdapter. simpl.
  rewrite <- Hc, JSFacts.Map_get_set_eq. by rewrite Hr.
Qed.

(** C5 (the code departs from it).  With the priorities 5 and 1 configured
    under the names "B" and "a", fallback enabled, and both adapters
    registered and ready, a scan that the claim starts at the adapter of
    priority 5 returns the one of priority 1: [getSortedAdapters] looks the
    record of the adapter stored as "b" up under "b", finds none (the
    constructor filed it under "B") and ranks the adapter at zero.  The
    same defect as in C8.  With the name written "b" in the configuration
    the adapter of priority 5 is returned, and in the example of the claim
    (priority 2 twice, registered as B then A) B is tried first. *)
Theorem fallback_scan_misreads_priority :
  (let m := Sample.ranked "B" in
   enableFallback m = true
   ∧ adapters m = [("a", Sample.instance 1 "a" true); ("b", Sample.instance 2 "b" true)]
   ∧ getReadyAdapters m = ["a"; "b"]
   ∧ configuredPriority (Sample.rankedConfig "B") "b" = 5%Z
   ∧ configuredPriority (Sample.rankedConfig "B") "a" = 1%Z
   ∧ priorityOf m "b" = 0%Z
   ∧ priorityOf m "a" = 1%Z
   ∧ getSortedAdapters m
     = [("a", Sample.instance 1 "a" true); ("b", Sample.instance 2 "b" true)]
   ∧ getAdapterWithFallback m (Some "missing")
     = (Return (Some (Sample.instance 1 "a" true)),
        [("Preferred adapter 'missing' not available, trying fallback", None);
         ("Using fallback adapter: a", None)]))
  ∧ (let m := Sample.ranked "b" in
     priorityOf m "b" = 5%Z
     ∧ getSortedAdapters m
       = [("b", Sample.instance 2 "b" true); ("a", Sample.instance 1 "a" true)]
     ∧ (getAdapterWithFallback m (Some "missing")).1
       = Return (Some (Sample.instance 2 "b" true)))
  ∧ (priorityOf Sample.tied "b" = 2%Z
     ∧ priorityOf Sample.tied "a" = 2%Z
     ∧ getSortedAdapters Sample.tied
       = [("b", Sample.instance 1 "B" true); ("a", Sample.instance 2 "A" true)]
     ∧ (getAdapterWithFallback Sample.tied (Some "x")).1
       = Return (Some (Sample.instance 1 "B" true))).
Proof. repeat split. Qed.




(** C7.  [getAdapter name] throws the 'not registered' configuration error
    when nothing is stored under the lower-cased name, throws the 'not
    ready' configuration error when the stored instance reports not ready,
    and otherwise returns the stored instance itself; in particular an
    instance handed to [registerAdapter] comes back unchanged, identity
    included, and after [removeAdapter] the name is not registered. *)
Theorem getAdapter_resolves (m : StorageManager) (name : string) :
  (JS.Map_get (adapters m) (JS.toLowerCase name) = None →
     getAdapter m name = Throw (notRegistered m name))
  ∧ (∀ a, JS.Map_get (adapters m) (JS.toLowerCase name) = Some a →
       isReady a = false → getAdapter m name = Throw (notReady name))
  ∧ (∀ a, JS.Map_get (adapters m) (JS.toLowerCase name) = Some a →
       isReady a = true → getAdapter m name = Return a)
  ∧ (∀ a, getAdapter (registerAdapter m name a) name
          = if isReady a then Return a else Throw (notReady name))
  ∧ getAdapter (removeAdapter m name) name
    = Throw (notRegistered (removeAdapter m name) name)
  ∧ isConfigurationError (notRegistered m name) = true
  ∧ isConfigurationError (notReady name) = true
  ∧ Exn.message (notRegistered m name)
    = "Storage adapter '" +:+ name +:+ "' is not registered or enabled"
  ∧ Exn.message (notReady name)
    = "Storage adapter '" +:+ name +:+ "' is not ready. Please check configuration.".
Proof.
  unfold getAdapter. repeat split.
  - by intros ->.
  - by intros a -> ->.
  - by intros a -> ->.
  - intros a. simpl. rewrite JSFacts.Map_get_set_eq. by destruct (isReady a).
  - simpl. by rewrite JSFacts.Map_get_delete_eq.
Qed.

(** At [Sample.strict]: "local" resolves to the registered instance, "s3" is
    not ready, "azure" is not registered. *)
Lemma getAdapter_resolves_witness :
  getAdapter Sample.strict "Local" = Return (Sample.instance 2 "local" true)
  ∧ getAdapter Sample.strict "s3" = Throw (notReady "s3")
  ∧ getAdapter Sample.strict "azure" = Throw (notRegistered Sample.strict "azure").
Proof.
  split; [|split].
  - apply (proj1 (proj2 (proj2 (getAdapter_resolves Sample.strict "Local"))));
      reflexivity.
  - apply (proj1 (proj2 (getAdapter_resolves Sample.strict "s3"))
             (Sample.instance 1 "s3" false)); reflexivity.
  - apply (proj1 (getAdapter_resolves Sample.strict "azure")); reflexivity.
Defined.

(** C8 (the code departs from it).  A configuration record whose name is
    written "S3" is stored under that spelling, whereas [registerFactory]
    looks configurations up under the lower-cased name: the factory is not
    run and no adapter is registered.  The same record spelled "s3" is
    found, whatever the casing used in [registerFactory]. *)
Theorem config_name_casing_not_normalised :
  let m := (registerFactory (new (Some Sample.upperCaseConfig)) "S3" Sample.s3Factory).1 in
  let m' := (registerFactory (new (Some Sample.lowerCaseConfig)) "S3" Sample.s3Factory).1 in
  adapters m = []
  ∧ hasAdapter m "S3" = false
  ∧ getAdapter m "S3" = Throw (notRegistered m "S3")
  ∧ priorityOf m "s3" = 0%Z
  ∧ getAdapter m' "s3" = Return (Sample.instance 7 "s3" true)
  ∧ priorityOf m' "s3" = 1%Z.
Proof. repeat split. Qed.

End ManagerFacts.

(** ** The notification bus *)

Module BusFacts.
Import Exn.
Import Bus.

Lemma Promise_all_guarded (k : string) (d : EventData) (ls : list EventListener) :
  existsb (fun l => rejects l d) ls = false →
  Promise_all (map fst (map (fun l => guarded k (call l d)) ls)) = Return tt.
Proof.
  induction ls as [|l r IH]; simpl; [done|].
  unfold rejects at 1. intros [Hl Hr]%orb_false_iff.
  destruct (call l d); simpl; try done; by apply IH.
Qed.

Lemma Promise_all_rejected (k : string) (d : EventData) (ls : list EventListener)
    (e : Error) :
  Promise_all (map fst (map (fun l => guarded k (call l d)) ls)) = Throw e →
  ∃ l, l ∈ ls ∧ call l d = Rejected e.
Proof.
  induction ls as [|l r IH]; simpl; [done|].
  destruct (call l d) eqn:Hc; simpl; intros H;
    try (destruct (IH H) as (l' & ? & ?); exists l'; split; [by right|done]).
  injection H as <-. exists l. split; [by left|done].
Qed.

(** An emission completes normally unless a listener returns a rejected
    promise: listeners that throw synchronously are logged and ignored. *)
Lemma emit_noRejection (em : StorageEventEmitter) (event : StorageEvent)
    (d : EventData) :
  noRejection em event → (emit em event d).1 = Return tt.
Proof.
  intros Hq. specialize (Hq d). unfold emit, registered in *.
  destruct (JS.Map_get (listeners em) (eventKey event)) as [a|]; [|done].
  destruct (length (deref em a) =? 0)%nat; [done|]. simpl.
  by apply Promise_all_guarded.
Qed.

(** An emission that rejects does so with the reason of one of the
    listeners registered for the event. *)
Lemma emit_rejected (em : StorageEventEmitter) (event : StorageEvent)
    (d : EventData) (e : Error) :
  (emit em event d).1 = Throw e →
  ∃ l, l ∈ registered em event ∧ call l d = Rejected e.
Proof.
  unfold emit, registered.
  destruct (JS.Map_get (listeners em) (eventKey event)) as [a|]; [|done].
  destruct (length (deref em a) =? 0)%nat; [done|]. simpl.
  apply Promise_all_rejected.
Qed.

(** A handle that is still current removes its listener from its event and
    leaves every other event alone. *)
Lemma unsubscribe_current (em : StorageEventEmitter) (u : Unsubscribe)
    (event : StorageEvent) :
  wellFormed em → current em u →
  registered (unsubscribe u em) event
  = if decide (eventKey event = captured_key u)
    then Set_delete (registered em event) (captured_listener u)
    else registered em event.
Proof.
  intros Hwf Hcur. destruct (Hwf _ _ Hcur) as [Hlt Hinj].
  unfold registered, unsubscribe, current in *.
  set (s := Set_delete (deref em (captured_set u)) (captured_listener u)).
  destruct (decide (eventKey event = captured_key u)) as [Hk|Hk].
  - rewrite Hk, Hcur. fold s.
    destruct (length s =? 0)%nat eqn:Hlen; simpl.
    + rewrite JSFacts.Map_get_delete_eq.
      apply Nat.eqb_eq in Hlen. by destruct s.
    + rewrite Hcur. unfold deref. simpl.
      by rewrite list_lookup_insert_eq.
  - assert (∀ a, JS.Map_get (listeners em) (eventKey event) = Some a →
              default [] (<[captured_set u := s]> (heap em) !! a) = deref em a)
      as Hother.
    { intros a Ha. unfold deref. rewrite list_lookup_insert_ne; [done|].
      intros <-. apply Hk. by apply Hinj. }
    destruct (length s =? 0)%nat; simpl.
    + rewrite JSFacts.Map_get_delete_ne by done.
      destruct (JS.Map_get _ (eventKey event)) as [a|] eqn:Ha; [|done].
      by apply Hother.
    + destruct (JS.Map_get _ (eventKey event)) as [a|] eqn:Ha; [|done].
      by apply Hother.
Qed.

Example fresh_handle_removes_its_listener :
  let '(em1, h1) := on empty BEFORE_UPLOAD (Sample.logger 1) in
  let '(em2, _) := on em1 BEFORE_UPLOAD (Sample.logger 2) in
  let '(em3, _) := on em2 UPLOAD_FAILED (Sample.logger 3) in
  let em4 := unsubscribe h1 em3 in
  registered em3 BEFORE_UPLOAD = [Sample.logger 1; Sample.logger 2]
  ∧ registered em4 BEFORE_UPLOAD = [Sample.logger 2]
  ∧ registered em4 UPLOAD_FAILED = [Sample.logger 3].
Proof. repeat split. Qed.

(** C9 (the code departs from it).  A handle obtained from [on], kept while
    [removeAllListeners] drops the event's set, and invoked after another
    listener has been registered for the same event, removes that other
    listener: the closure still holds the old set, finds it empty after its
    own deletion, and deletes the event's current entry. *)
Theorem stale_handle_removes_later_listener :
  let '(em1, h1) := on empty BEFORE_UPLOAD (Sample.logger 1) in
  let em2 := removeAllListeners em1 (Some BEFORE_UPLOAD) in
  let '(em3, _) := on em2 BEFORE_UPLOAD (Sample.logger 2) in
  let em4 := unsubscribe h1 em3 in
  registered em2 BEFORE_UPLOAD = []
  ∧ registered em3 BEFORE_UPLOAD = [Sample.logger 2]
  ∧ registered em4 BEFORE_UPLOAD = []
  ∧ listenerCount em4 BEFORE_UPLOAD = 0
  ∧ hasListeners em4 BEFORE_UPLOAD = false.
Proof. repeat split. Qed.

End BusFacts.

(** ** The instrumented operations *)

Module EnvelopeFacts.
Import Exn.
Import Types.
Import Bus.
Import Envelope.
Import BusFacts.
Import Invariants.

(** Every wrapped operation is the shared body run with the id chosen by
    [correlationIdFor]. *)
Lemma invoke_eq (rt : Runtime) (a : BaseStorageAdapter) (req : Request) :
  invoke rt a req = bind (correlationIdFor rt req) (hooked rt a req).
Proof. by destruct req. Qed.

(** Unless it is an upload with a non-empty supplied id, an invocation
    draws its correlation id from [uuidv4]. *)
Lemma correlationIdFor_minted (rt : Runtime) (req : Request) :
  (∀ f o, req = Upload f o → JS.truthy_opt (suppliedCorrelationId o) = false) →
  correlationIdFor rt req = uuidv4 rt.
Proof.
  destruct req as [f o| | | | |]; try done. simpl. intros H.
  specialize (H f o eq_refl).
  destruct (suppliedCorrelationId o) as [c|]; [|done].
  simpl in H. by rewrite H.
Qed.

Lemma correlationIdFor_supplied (rt : Runtime) (f : StorageFile)
    (o : option UploadOptions) (c : string) :
  suppliedCorrelationId o = Some c → JS.truthy c = true →
  correlationIdFor rt (Upload f o) = ret c.
Proof. simpl. by intros -> ->. Qed.

Ltac run_emit :=
  match goal with
  | |- context [Bus.emit ?em ?ev ?d] =>
      let E := fresh "Hemit" in
      destruct (Bus.emit em ev d) as [[[]|?] ?] eqn:E; simpl in *
  end.

Ltac run_backend :=
  match goal with
  | |- context [perform ?a ?h ?r] =>
      let E := fresh "Hperform" in
      destruct (perform a h r) as [?|?] eqn:E; simpl in *
  end.

Ltac run_hooked :=
  unfold hooked, try_catch, bind, Envelope.emit, performOp, Date_now, ret, throw;
  simpl; repeat (first [run_emit | run_backend]).

(** The shared body emits the events of one lifecycle, all with the id it
    was given, and draws no id itself. *)
Lemma hooked_lifecycle (rt : Runtime) (a : BaseStorageAdapter) (req : Request)
    (cid : string) (w : World) :
  minted (hooked rt a req cid w).2 = minted w
  ∧ ∃ evs, emitted (hooked rt a req cid w).2 = emitted w ++ evs
           ∧ lifecycle req cid evs.
Proof.
  unfold lifecycle. run_hooked; (split; [done|]);
    eexists; (split; [rewrite <- ?app_assoc; reflexivity|]);
    eexists _, _; (split; [reflexivity|]);
    (split; [done|]);
    split; repeat (first [apply Forall_nil_2 | apply Forall_cons_2]);
    simpl; auto.
Qed.

(** Choosing the id always succeeds and touches nothing but the id source. *)
Lemma correlationIdFor_frame (rt : Runtime) (req : Request) (w : World) :
  ∃ cid w0,
    correlationIdFor rt req w = (Return cid, w0)
    ∧ ticks w0 = ticks w ∧ console w0 = console w
    ∧ emitted w0 = emitted w ∧ invoked w0 = invoked w.
Proof.
  destruct req as [f o| | | | |]; simpl; unfold uuidv4, ret; eauto 10.
  destruct (suppliedCorrelationId o) as [c|]; [destruct (JS.truthy c)|];
    eauto 10.
Qed.

Lemma invoke_lifecycle (rt : Runtime) (a : BaseStorageAdapter) (req : Request)
    (w : World) :
  ∃ cid w0,
    correlationIdFor rt req w = (Return cid, w0)
    ∧ minted (invoke rt a req w).2 = minted w0
    ∧ ∃ evs, emitted (invoke rt a req w).2 = emitted w ++ evs
             ∧ lifecycle req cid evs.
Proof.
  destruct (correlationIdFor_frame rt req w) as (cid & w0 & Hc & _ & _ & He & _).
  exists cid, w0. split; [done|].
  rewrite invoke_eq. unfold bind at 1 2. rewrite Hc, <- He.
  apply hooked_lifecycle.
Qed.

(** How an invocation ends once its pre-event has been rejected. *)
Lemma hooked_vetoed (rt : Runtime) (a : BaseStorageAdapter) (req : Request)
    (cid : string) (w : World) (e : Error) :
  (Bus.emit (eventEmitter a) (beforeEvent req)
     (beforeData a (clock rt (S (ticks w))) cid req)).1 = Throw e →
  let failure :=
    failedData a (clock rt (3 + ticks w)) cid req e
      (clock rt (2 + ticks w) - clock rt (ticks w)) in
  invoked (hooked rt a req cid w).2 = invoked w
  ∧ emitted (hooked rt a req cid w).2
    = emitted w ++ [(beforeEvent req, beforeData a (clock rt (S (ticks w))) cid req);
                    (failedEvent req, failure)]
  ∧ (∃ e', (hooked rt a req cid w).1 = Throw e')
  ∧ ((Bus.emit (eventEmitter a) (failedEvent req) failure).1 = Return ()
     → (hooked rt a req cid w).1 = Throw e).
Proof.
  intros Hpre. unfold hooked, try_catch, bind, Envelope.emit, performOp,
    Date_now, ret, throw. simpl.
  destruct (Bus.emit _ (beforeEvent req) _) as [c ls]. simpl in Hpre. subst c.
  simpl.
  destruct (Bus.emit _ (failedEvent req) _) as [[[]|e'] ls']; simpl;
    rewrite <- ?app_assoc; repeat split; eauto; done.
Qed.

(** How an invocation ends when no listener of its pre-event rejects. *)
Lemma hooked_unmasked (rt : Runtime) (a : BaseStorageAdapter) (req : Request)
    (cid : string) (w : World) :
  noRejection (eventEmitter a) (beforeEvent req) →
  invoked (hooked rt a req cid w).2 = invoked w ++ [req]
  ∧ (∀ r, perform a (invoked w) req = Return r →
       noRejection (eventEmitter a) (successEvent req) →
       (hooked rt a req cid w).1 = Return r)
  ∧ (∀ e, perform a (invoked w) req = Throw e →
       noRejection (eventEmitter a) (failedEvent req) →
       (hooked rt a req cid w).1 = Throw e).
Proof.
  intros Hb. unfold hooked, try_catch, bind, Envelope.emit, performOp,
    Date_now, ret, throw. simpl.
  pose proof (emit_noRejection _ _
    (beforeData a (clock rt (S (ticks w))) cid req) Hb) as H0.
  destruct (Bus.emit _ (beforeEvent req) _) as [c ls]. simpl in H0. subst c.
  simpl. split; [|split].
  - destruct (perform a (invoked w) req) as [r|e]; simpl.
    + destruct (Bus.emit _ (successEvent req) _) as [[[]|e] ?]; simpl; [done|].
      by destruct (Bus.emit _ (failedEvent req) _) as [[[]|?] ?].
    + by destruct (Bus.emit _ (failedEvent req) _) as [[[]|?] ?].
  - intros r -> Hs. simpl.
    match goal with |- context [Bus.emit ?em ?ev ?d] =>
      pose proof (emit_noRejection em ev d Hs) as H1;
      destruct (Bus.emit em ev d) as [c ?]; simpl in H1; subst c end.
    done.
  - intros e -> Hf. simpl.
    match goal with |- context [Bus.emit ?em ?ev ?d] =>
      pose proof (emit_noRejection em ev d Hf) as H1;
      destruct (Bus.emit em ev d) as [c ?]; simpl in H1; subst c end.
    done.
Qed.



(** How an invocation ends once its pre-event has been rejected: with the
    listener's error, or with the rejection of the failure event's own
    emission. *)
Lemma hooked_vetoed_outcome (rt : Runtime) (a : BaseStorageAdapter) (req : Request)
    (cid : string) (w : World) (e : Error) :
  (Bus.emit (eventEmitter a) (beforeEvent req)
     (beforeData a (clock rt (S (ticks w))) cid req)).1 = Throw e →
  (hooked rt a req cid w).1
  = match (Bus.emit (eventEmitter a) (failedEvent req)
             (failedData a (clock rt (3 + ticks w)) cid req e
                (clock rt (2 + ticks w) - clock rt (ticks w)))).1 with
    | Return _ => Throw e
    | Throw e' => Throw e'
    end.
Proof.
  intros Hpre. unfold hooked, try_catch, bind, Envelope.emit, performOp,
    Date_now, ret, throw. simpl.
  destruct (Bus.emit _ (beforeEvent req) _) as [c ls]. simpl in Hpre. subst c.
  simpl. by destruct (Bus.emit _ (failedEvent req) _) as [[[]|e'] ls'].
Qed.

(** C1 (the code departs from it).  A listener of a 'before' event that
    throws synchronously, as the validation interceptor of the examples
    does, stops none of the six operations: the bus catches and logs the
    error, the backend is invoked and its response is returned.  Only a
    listener returning a rejected promise keeps the backend from running. *)
Theorem thrown_validator_does_not_veto :
  Forall (λ req,
      let run := invoke Sample.runtime Sample.guardedBySyncValidators req
                   Sample.world0 in
      run.1 = Return Sample.stored
      ∧ invoked run.2 = [req]
      ∧ console run.2
        = [("Error in event listener for " +:+ eventKey (beforeEvent req) +:+ ":",
            Some Sample.tooLarge)])
    Sample.sixRequests
  ∧ (let run := invoke Sample.runtime Sample.guardedByAsyncValidator
                  (Upload Sample.file None) Sample.world0 in
     run.1 = Throw Sample.tooLarge ∧ invoked run.2 = []).
Proof. split; [repeat constructor | split; reflexivity]. Qed.




(** An upload that is handed a non-empty id keeps it. *)
Lemma upload_keeps_supplied_id (rt : Runtime) (a : BaseStorageAdapter)
    (w : World) (file : StorageFile) (options : option UploadOptions)
    (c : string) :
  suppliedCorrelationId options = Some c → JS.truthy c = true →
  minted (upload rt a file options w).2 = minted w
  ∧ ∃ evs, emitted (upload rt a file options w).2 = emitted w ++ evs
           ∧ lifecycle (Upload file options) c evs.
Proof.
  intros Hs Ht.
  destruct (invoke_lifecycle rt a (Upload file options) w)
    as (cid & w0 & Hc & Hm & Hev).
  rewrite (correlationIdFor_supplied rt file options c Hs Ht) in Hc.
  injection Hc as <- <-. done.
Qed.

(** Any other invocation draws the next id of the source. *)
Lemma invoke_mints_id (rt : Runtime) (a : BaseStorageAdapter) (w : World)
    (req : Request) :
  (∀ file options, req = Upload file options →
     JS.truthy_opt (suppliedCorrelationId options) = false) →
  minted (invoke rt a req w).2 = S (minted w)
  ∧ ∃ evs, emitted (invoke rt a req w).2 = emitted w ++ evs
           ∧ lifecycle req (uuid rt (minted w)) evs.
Proof.
  intros Hreq.
  destruct (invoke_lifecycle rt a req w) as (cid & w0 & Hc & Hm & Hev).
  rewrite (correlationIdFor_minted rt req Hreq) in Hc.
  injection Hc as <- <-. done.
Qed.

Lemma sample_uuid_inj i j :
  uuid Sample.runtime i = uuid Sample.runtime j → i = j.
Proof. simpl. intros [= H]. by apply (inj pretty). Qed.

(** C3, as stated, fails: [download] called with options whose metadata
    carry a correlation id emits its events under a minted id. *)
Lemma download_ignores_supplied_id :
  callerCorrelationId (Download "a.txt" Sample.downloadTraced) = Some "trace-42"
  ∧ map (λ ev, (ev.1, correlationId ev.2))
      (emitted (invoke Sample.runtime Sample.plain
                  (Download "a.txt" Sample.downloadTraced) Sample.world0).2)
    = [(BEFORE_DOWNLOAD, "uuid-0"); (AFTER_DOWNLOAD_SUCCESS, "uuid-0")].
Proof. split; reflexivity. Qed.

(** C3, amended.  [upload] called with a non-empty
    [options.metadata.correlationId] emits all its events under that id
    and draws none from [uuidv4]; every other invocation ([upload] without
    such an id, and the five other operations whatever their options)
    draws one id from [uuidv4] and emits all its events under it. *)
Theorem correlation_id_source (rt : Runtime) (a : BaseStorageAdapter) (w : World) :
  (∀ file options c,
     suppliedCorrelationId options = Some c → JS.truthy c = true →
     minted (upload rt a file options w).2 = minted w
     ∧ ∃ evs, emitted (upload rt a file options w).2 = emitted w ++ evs
              ∧ lifecycle (Upload file options) c evs)
  ∧ (∀ req,
       (∀ file options, req = Upload file options →
          JS.truthy_opt (suppliedCorrelationId options) = false) →
       minted (invoke rt a req w).2 = S (minted w)
       ∧ ∃ evs, emitted (invoke rt a req w).2 = emitted w ++ evs
                ∧ lifecycle req (uuid rt (minted w)) evs).
Proof.
  split.
  - intros file options c. apply upload_keeps_supplied_id.
  - intros req. apply invoke_mints_id.
Qed.

(** An upload tagged "trace-42" keeps that id; a get draws "uuid-0". *)
Lemma correlation_id_source_witness :
  (∃ evs, emitted (upload Sample.runtime Sample.plain Sample.file
                     Sample.uploadTraced Sample.world0).2 = [] ++ evs
          ∧ lifecycle (Upload Sample.file Sample.uploadTraced) "trace-42" evs)
  ∧ (∃ evs, emitted (invoke Sample.runtime Sample.plain (Get "a.txt")
                       Sample.world0).2 = [] ++ evs
            ∧ lifecycle (Get "a.txt") "uuid-0" evs).
Proof.
  split.
  - apply (proj1 (correlation_id_source Sample.runtime Sample.plain
                    Sample.world0) Sample.file Sample.uploadTraced "trace-42");
      reflexivity.
  - apply (proj2 (correlation_id_source Sample.runtime Sample.plain
                    Sample.world0) (Get "a.txt")).
    intros file options H. discriminate H.
Defined.

(** C4.  The events of one invocation (pre-event, then success event,
    failure event or both) carry one correlation id; and, the id source
    never repeating, two invocations made one after the other without an
    explicit id, on the same adapter or on two, carry different ids. *)
Theorem correlation_ids_stable_and_fresh (rt : Runtime)
    (a1 a2 : BaseStorageAdapter) (req1 req2 : Request) (w : World) :
  (∀ i j, uuid rt i = uuid rt j → i = j) →
  let w1 := (invoke rt a1 req1 w).2 in
  let w2 := (invoke rt a2 req2 w1).2 in
  (∃ c evs, emitted w1 = emitted w ++ evs ∧ lifecycle req1 c evs)
  ∧ (JS.truthy_opt (callerCorrelationId req1) = false →
     JS.truthy_opt (callerCorrelationId req2) = false →
     ∃ c1 c2 evs1 evs2,
       emitted w1 = emitted w ++ evs1 ∧ lifecycle req1 c1 evs1
       ∧ emitted w2 = emitted w1 ++ evs2 ∧ lifecycle req2 c2 evs2
       ∧ c1 ≠ c2).
Proof.
  intros Hinj w1 w2. split.
  - destruct (invoke_lifecycle rt a1 req1 w) as (cid & w0 & _ & _ & evs & ? & ?).
    by exists cid, evs.
  - intros H1 H2.
    assert (∀ req, JS.truthy_opt (callerCorrelationId req) = false →
              ∀ file options, req = Upload file options →
                JS.truthy_opt (suppliedCorrelationId options) = false) as Hnone.
    { intros req H file options ->. exact H. }
    destruct (invoke_mints_id rt a1 w req1 (Hnone _ H1))
      as (Hm1 & evs1 & He1 & Hl1).
    destruct (invoke_mints_id rt a2 w1 req2 (Hnone _ H2))
      as (_ & evs2 & He2 & Hl2).
    exists (uuid rt (minted w)), (uuid rt (minted w1)), evs1, evs2.
    repeat split; try done.
    intros Heq. apply Hinj in Heq. subst w1. lia.
Qed.

(** A get followed by an upload, neither with an explicit id: "uuid-0",
    then "uuid-1". *)
Lemma correlation_ids_stable_and_fresh_witness :
  ∃ c1 c2 evs1 evs2,
    emitted (invoke Sample.runtime Sample.plain (Get "a.txt") Sample.world0).2
    = emitted Sample.world0 ++ evs1
    ∧ lifecycle (Get "a.txt") c1 evs1
    ∧ emitted (invoke Sample.runtime Sample.plain (Upload Sample.file None)
                 (invoke Sample.runtime Sample.plain (Get "a.txt")
                    Sample.world0).2).2
      = emitted (invoke Sample.runtime Sample.plain (Get "a.txt")
                   Sample.world0).2 ++ evs2
    ∧ lifecycle (Upload Sample.file None) c2 evs2
    ∧ c1 ≠ c2.
Proof.
  apply (proj2 (correlation_ids_stable_and_fresh Sample.runtime Sample.plain
                  Sample.plain (Get "a.txt") (Upload Sample.file None)
                  Sample.world0 sample_uuid_inj)); reflexivity.
Defined.

(** C10, as stated, fails: a download vetoed by a validator, on an adapter
    whose listener of failed downloads returns a rejected promise too.  The
    backend is not invoked and the failure event carries the validator's
    error, but the error the caller gets is the rejection of the failure
    event's listener, not the validator's. *)
Lemma failed_listener_replaces_veto_error :
  let run := invoke Sample.runtime Sample.guardedAndNotified
               (Download "a.txt" None) Sample.world0 in
  invoked run.2 = []
  ∧ map (λ ev, (ev.1, Bus.error ev.2)) (emitted run.2)
    = [(BEFORE_DOWNLOAD, None); (DOWNLOAD_FAILED, Some Sample.tooLarge)]
  ∧ run.1 = Throw Sample.hookFailed
  ∧ run.1 ≠ Throw Sample.tooLarge.
Proof. repeat split; done. Qed.

(** C10, amended.  When the emission of a pre-event is rejected with [e]
    (the reason of one of its listeners), the backend is not invoked and
    the wrapper emits exactly one more event after the pre-event
    ("beforeUpload" and so on), the failure event of the operation
    ("uploadFailed" for upload, and so on for the five others),
    whose [error] is [e] and whose [duration] is the time elapsed since
    [startTime].  The caller then gets an error: [e] itself when the
    emission of that failure event completes, and otherwise the rejection
    of that emission, which is the reason of one of the failure event's
    listeners. *)
Theorem veto_emits_failure_event (rt : Runtime) (a : BaseStorageAdapter)
    (req : Request) (w : World) (cid : string) (e : Error) :
  (correlationIdFor rt req w).1 = Return cid →
  (Bus.emit (eventEmitter a) (beforeEvent req)
     (beforeData a (clock rt (S (ticks w))) cid req)).1 = Throw e →
  let failure :=
    failedData a (clock rt (3 + ticks w)) cid req e
      (clock rt (2 + ticks w) - clock rt (ticks w)) in
  (∃ l, l ∈ registered (eventEmitter a) (beforeEvent req)
        ∧ Bus.call l (beforeData a (clock rt (S (ticks w))) cid req) = Rejected e)
  ∧ invoked (invoke rt a req w).2 = invoked w
  ∧ emitted (invoke rt a req w).2
    = emitted w ++ [(beforeEvent req, beforeData a (clock rt (S (ticks w))) cid req);
                    (failedEvent req, failure)]
  ∧ eventKey (beforeEvent req) = "before" +:+ methodStem req
  ∧ eventKey (failedEvent req) = methodName req +:+ "Failed"
  ∧ Bus.error failure = Some e
  ∧ Bus.duration failure = Some (clock rt (2 + ticks w) - clock rt (ticks w))%Z
  ∧ ((Bus.emit (eventEmitter a) (failedEvent req) failure).1 = Return ()
     → (invoke rt a req w).1 = Throw e)
  ∧ (∀ e', (Bus.emit (eventEmitter a) (failedEvent req) failure).1 = Throw e'
     → (invoke rt a req w).1 = Throw e'
       ∧ ∃ l, l ∈ registered (eventEmitter a) (failedEvent req)
              ∧ Bus.call l failure = Rejected e').
Proof.
  intros Hcid Hpre failure.
  split; [by apply emit_rejected|].
  destruct (correlationIdFor_frame rt req w)
    as (cid' & w0 & Hc & Ht & _ & He & Hi).
  rewrite Hc in Hcid. injection Hcid as ->.
  rewrite invoke_eq. unfold bind at 1 2 3 4. rewrite Hc.
  rewrite <- Ht in Hpre. subst failure. rewrite <- Ht, <- He, <- Hi.
  destruct (hooked_vetoed rt a req cid w0 e Hpre) as (H1 & H2 & _ & _).
  pose proof (hooked_vetoed_outcome rt a req cid w0 e Hpre) as H3.
  split; [done|]. split; [done|]. split; [by destruct req|].
  split; [by destruct req|].
  split; [done|]. split; [done|]. split.
  - intros Hok. by rewrite Hok in H3.
  - intros e' Hko. split; [by rewrite Hko in H3 | by apply emit_rejected].
Qed.

(** A delete guarded by a validator that rejects: no backend call, then the
    event "deleteFailed" carrying the validator's error, and that error
    raised. *)
Lemma veto_emits_failure_event_witness :
  invoked (invoke Sample.runtime Sample.guardedDelete
             (Delete "a.txt" None) Sample.world0).2 = []
  ∧ map (λ ev, (eventKey ev.1, Bus.error ev.2, Bus.duration ev.2))
      (emitted (invoke Sample.runtime Sample.guardedDelete
                  (Delete "a.txt" None) Sample.world0).2)
    = [("beforeDelete", None, None);
       ("deleteFailed", Some Sample.tooLarge, Some 10%Z)]
  ∧ (invoke Sample.runtime Sample.guardedDelete
       (Delete "a.txt" None) Sample.world0).1 = Throw Sample.tooLarge.
Proof.
  pose proof (veto_emits_failure_event Sample.runtime
                Sample.guardedDelete (Delete "a.txt" None)
                Sample.world0 "uuid-0" Sample.tooLarge eq_refl eq_refl)
    as (_ & Hi & He & _ & _ & _ & _ & Hr & _).
  split; [exact Hi|]. split; [by rewrite He|]. by apply Hr.
Defined.
End EnvelopeFacts.

(** ** More on maps and strings *)

Module JSMore.
Import JS.

Lemma lower_idemp (c : ascii) : lower (lower c) = lower c.
Proof. by destruct c as [[] [] [] [] [] [] [] []]. Qed.

Lemma toLowerCase_idemp (s : string) : toLowerCase (toLowerCase s) = toLowerCase s.
Proof. induction s as [|c r IH]; simpl; [done|]. by rewrite lower_idemp, IH. Qed.

Lemma truthy_toLowerCase (s : string) : truthy (toLowerCase s) = truthy s.
Proof. by destruct s. Qed.

Section MapMore.
Context {V : Type}.
Implicit Types (m : Map V) (k : string) (v : V).

Lemma Map_get_elem_of m k v : Map_get m k = Some v → (k, v) ∈ m.
Proof.
  induction m as [|[k' v'] r IH]; simpl; [done|].
  destruct (decide (k' = k)) as [->|]; [intros [= ->]; by left|].
  intros H. right. by apply IH.
Qed.

Lemma Map_get_None m k : Map_get m k = None ↔ k ∉ Map_keys m.
Proof.
  unfold Map_keys. induction m as [|[k' v'] r IH]; simpl.
  - split; [intros _; apply not_elem_of_nil | done].
  - rewrite not_elem_of_cons. destruct (decide (k' = k)) as [->|Hne].
    + split; [done | by intros [? _]].
    + rewrite IH. split; [by intros ? | by intros [_ ?]].
Qed.

Lemma Map_has_keys m k : Map_has m k = true ↔ k ∈ Map_keys m.
Proof.
  unfold Map_has. destruct (Map_get m k) eqn:H.
  - split; [intros _|done]. destruct (decide (k ∈ Map_keys m)); [done|].
    apply Map_get_None in n. congruence.
  - split; [done|]. intros Hin. by apply Map_get_None in H.
Qed.

(** [set] keeps the place of a key that is present, and appends a new one. *)
Lemma Map_keys_set m k v :
  Map_keys (Map_set m k v)
  = if Map_has m k then Map_keys m else Map_keys m ++ [k].
Proof.
  unfold Map_has, Map_keys. induction m as [|[k' v'] r IH]; simpl; [done|].
  destruct (decide (k' = k)) as [->|Hne]; simpl; [done|].
  rewrite IH. by destruct (Map_get r k).
Qed.

Lemma Map_keys_delete m k :
  Map_keys (Map_delete m k) = List.filter (λ k', negb (bool_decide (k' = k))) (Map_keys m).
Proof.
  unfold Map_keys. induction m as [|[k' v'] r IH]; simpl; [done|].
  destruct (decide (k' = k)) as [->|Hne]; simpl.
  - by rewrite bool_decide_eq_true_2.
  - rewrite bool_decide_eq_false_2 by done. simpl. by rewrite IH.
Qed.

Lemma NoDup_Map_keys_set m k v :
  NoDup (Map_keys m) → NoDup (Map_keys (Map_set m k v)).
Proof.
  intros Hnd. rewrite Map_keys_set.
  destruct (Map_has m k) eqn:Hh; [done|].
  apply NoDup_app. repeat split; [done| |apply NoDup_singleton].
  intros x Hx ->%list_elem_of_singleton.
  apply Map_has_keys in Hx. congruence.
Qed.

Lemma NoDup_Map_keys_delete m k :
  NoDup (Map_keys m) → NoDup (Map_keys (Map_delete m k)).
Proof.
  rewrite Map_keys_delete. intros Hnd.
  induction Hnd as [|x l Hx Hnd IH]; simpl; [constructor|].
  destruct (negb _); [|done]. constructor; [|done].
  rewrite list_elem_of_In, filter_In, <- list_elem_of_In. tauto.
Qed.


End MapMore.

(** Sorting by two ranks that agree on the elements sorted. *)
Lemma sort_insert_ext {A} (f g : A → Z) (x : A) (l : list A) :
  f x = g x → Forall (λ y, f y = g y) l →
  sort_insert (byRankDesc f) x l = sort_insert (byRankDesc g) x l.
Proof.
  intros Hx. induction 1 as [|y r Hy _ IH]; simpl; [done|].
  unfold byRankDesc at 1 3. rewrite Hx, Hy.
  destruct (_ <=? 0)%Z; [done|]. by rewrite IH.
Qed.

Lemma Array_sort_ext {A} (f g : A → Z) (l : list A) :
  Forall (λ y, f y = g y) l →
  Array_sort (byRankDesc f) l = Array_sort (byRankDesc g) l.
Proof.
  induction 1 as [|x r Hx Hr IH]; simpl; [done|].
  rewrite IH. apply sort_insert_ext; [done|].
  by rewrite (JSFacts.Array_sort_perm g r).
Qed.

(** In a sorted list an earlier element is related to every later one. *)
Lemma StronglySorted_lookup {A} (R : A → A → Prop) (l : list A) (i j : nat)
    (x y : A) :
  StronglySorted R l → (i < j)%nat → l !! i = Some x → l !! j = Some y → R x y.
Proof.
  intros Hs. revert i j. induction Hs as [|z r Hs IH Hz]; intros i j Hij; [done|].
  destruct j as [|j]; [lia|]. destruct i as [|i]; simpl.
  - intros [= <-] Hy. apply (proj1 (Forall_forall _ _) Hz).
    by apply list_elem_of_lookup_2 in Hy.
  - apply IH. lia.
Qed.

End JSMore.

(** ** More on the registry *)

Module ManagerMore.
Import Exn.
Import Manager.
Import Invariants.

Lemma tryNamed_leaves (m : StorageManager) (n w : string) (asked asked' : Asked)
    (r : Completion (option IStorageAdapter)) :
  tryNamed m n w asked = (Leave r, asked') →
  (∃ a, r = Return (Some a)
        ∧ JS.Map_get (adapters m) (JS.toLowerCase n) = Some a
        ∧ asked' = (asked ++ [oid a]) ++ [oid a]
        ∧ readiness a (timesAsked (asked ++ [oid a]) a) = true)
  ∨ (∃ e, r = Throw e ∧ enableFallback m = false).
Proof.
  unfold tryNamed.
  destruct (getAdapterAsked m n asked) as [[a|e] asked1] eqn:Hg.
  - apply ManagerFacts.getAdapterAsked_returns in Hg as (Hget & _ & ->).
    unfold ask.
    destruct (readiness a (timesAsked (asked ++ [oid a]) a)) eqn:Hr; [|done].
    intros [= <- <-]. left. eauto 10.
  - destruct (enableFallback m); [done|]. intros [= <- _]. right. eauto.
Qed.

(** A named step that goes on has logged its warning, or nothing. *)
Lemma tryNamed_goes_on (m : StorageManager) (n w : string) (asked asked' : Asked)
    (log : list ConsoleLine) :
  tryNamed m n w asked = (GoOn log, asked') → log = [] ∨ log = [(w, None)].
Proof.
  unfold tryNamed.
  destruct (getAdapterAsked m n asked) as [[a|e] asked1].
  - unfold ask. destruct (readiness a _); [done|]. intros [= <- _]. by left.
  - destruct (enableFallback m); [|done]. intros [= <- _]. by right.
Qed.

Lemma turn_0 (asked : Asked) (l : list (string * IStorageAdapter)) :
  turn asked l 0 = asked.
Proof. unfold turn. simpl. apply app_nil_r. Qed.

Lemma turn_S (asked : Asked) (e : string * IStorageAdapter)
    (l : list (string * IStorageAdapter)) (i : nat) :
  turn asked (e :: l) (S i) = turn (asked ++ [oid e.2]) l i.
Proof. unfold turn. simpl. by rewrite <- app_assoc. Qed.

(** The loop returns the first entry that passes its test when its turn
    comes. *)
Lemma scan_found (m : StorageManager) (pref : option string)
    (l : list (string * IStorageAdapter)) (asked asked' : Asked)
    (e : string * IStorageAdapter) :
  scan m pref l asked = (Some e, asked') →
  ∃ i, l !! i = Some e
    ∧ asked' = turn asked l i ++ [oid e.2]
    ∧ eligible m pref (turn asked l i) e = true
    ∧ ∀ j e', (j < i)%nat → l !! j = Some e' →
        eligible m pref (turn asked l j) e' = false.
Proof.
  revert asked. induction l as [|x r IH]; intros asked; simpl; [done|].
  destruct (eligible m pref asked x) eqn:Hx.
  - intros [= <- <-]. exists 0. rewrite turn_0.
    split; [done|]. split; [done|]. split; [done|]. intros j e' Hj. lia.
  - intros (i & Hi & -> & He & Hbefore)%IH. exists (S i). rewrite turn_S.
    split; [done|]. split; [done|]. split; [done|].
    intros [|j] e' Hj; simpl.
    + intros [= <-]. by rewrite turn_0.
    + rewrite turn_S. apply Hbefore. lia.
Qed.

Lemma scan_none (m : StorageManager) (pref : option string)
    (l : list (string * IStorageAdapter)) (asked : Asked) :
  (scan m pref l asked).1 = None ↔
  ∀ j e', l !! j = Some e' → eligible m pref (turn asked l j) e' = false.
Proof.
  revert asked. induction l as [|x r IH]; intros asked; simpl.
  - split; [by intros _ j e'|done].
  - destruct (eligible m pref asked x) eqn:Hx; simpl.
    + split; [done|]. intros H. specialize (H 0 x eq_refl).
      rewrite turn_0 in H. congruence.
    + rewrite IH. split.
      * intros H [|j] e'; simpl.
        { intros [= <-]. by rewrite turn_0. }
        { rewrite turn_S. apply H. }
      * intros H j e' Hj. specialize (H (S j) e' Hj). by rewrite turn_S in H.
Qed.

(** The shape of a call of the resolver: it leaves at the preferred step,
    at the default step, or ends with the loop. *)
Lemma getAdapterWithFallbackAsked_cases (m : StorageManager) (pref : option string) :
  (∃ p w r asked1,
      pref = Some p ∧ JS.truthy p = true
      ∧ tryNamed m p w [] = (Leave r, asked1)
      ∧ getAdapterWithFallbackAsked m pref = ((r, []), asked1))
  ∨ (∃ d w log1 asked1 r asked2,
        defaultAdapter m = Some d ∧ JS.truthy d = true
        ∧ preferredStep m pref [] = (GoOn log1, asked1)
        ∧ tryNamed m d w asked1 = (Leave r, asked2)
        ∧ getAdapterWithFallbackAsked m pref = ((r, log1), asked2))
  ∨ (∃ log1 asked1 log2 asked2,
        preferredStep m pref [] = (GoOn log1, asked1)
        ∧ defaultStep m pref asked1 = (GoOn log2, asked2)
        ∧ askedBeforeScan m pref = asked2
        ∧ getAdapterWithFallbackAsked m pref
          = if enableFallback m then
              match scan m pref (getSortedAdapters m) asked2 with
              | (Some (key, adapter), asked3) =>
                  ((Return (Some adapter),
                    log1 ++ log2 ++ [("Using fallback adapter: " +:+ key, None)]),
                   asked3)
              | (None, asked3) => ((Return None, log1 ++ log2), asked3)
              end
            else ((Return None, log1 ++ log2), asked2)).
Proof.
  unfold getAdapterWithFallbackAsked, askedBeforeScan.
  destruct (preferredStep m pref []) as [[r|log1] asked1] eqn:H1.
  - left. unfold preferredStep in H1. destruct pref as [p|]; [|done].
    destruct (JS.truthy p) eqn:Hp; [|done]. eauto 10.
  - destruct (defaultStep m pref asked1) as [[r|log2] asked2] eqn:H2.
    + right; left. unfold defaultStep in H2.
      destruct (defaultAdapter m) as [d|]; [|done].
      destruct (JS.truthy d) eqn:Hd; simpl in H2; [|done].
      destruct (negb _ || negb _); [|done]. eauto 15.
    + right; right. exists log1, asked1, log2, asked2.
      repeat split; try done. simpl. by rewrite H2.
Qed.

(** X1.  Whatever the configuration, an adapter returned by
    [getAdapterWithFallback] is one of the registered instances, and the
    last [isReady()] call the resolver made was put to that adapter and
    answered true; an adapter whose answer never changes is therefore
    ready. *)
Theorem resolver_returns_registered_ready (m : StorageManager)
    (pref : option string) (a : IStorageAdapter) :
  (getAdapterWithFallback m pref).1 = Return (Some a) →
  (∃ k, (k, a) ∈ adapters m)
  ∧ (∃ before, (getAdapterWithFallbackAsked m pref).2 = before ++ [oid a]
               ∧ readiness a (timesAsked before a) = true)
  ∧ ((∀ n, readiness a n = isReady a) → isReady a = true).
Proof.
  intros Hr.
  assert ((∃ k, (k, a) ∈ adapters m)
          ∧ ∃ before, (getAdapterWithFallbackAsked m pref).2 = before ++ [oid a]
                      ∧ readiness a (timesAsked before a) = true) as [H1 H2].
  { assert (∀ n w asked asked',
              tryNamed m n w asked = (Leave (Return (Some a)), asked') →
              (∃ k, (k, a) ∈ adapters m)
              ∧ ∃ before, asked' = before ++ [oid a]
                          ∧ readiness a (timesAsked before a) = true) as Hstep.
    { intros n w asked asked'
        [(a' & [= <-] & Hg & -> & Hready)|(e & [=] & _)]%tryNamed_leaves.
      split; [eexists; by apply JSMore.Map_get_elem_of | eauto]. }
    unfold getAdapterWithFallback in Hr.
    destruct (getAdapterWithFallbackAsked_cases m pref)
      as [(p & w & r & asked1 & _ & _ & Hs & H)
         |[(d & w & log1 & asked1 & r & asked2 & _ & _ & _ & Hs & H)
          |(log1 & asked1 & log2 & asked2 & _ & _ & _ & H)]];
      rewrite H in Hr |- *; simpl in Hr.
    - subst r. by apply (Hstep p w [] asked1).
    - subst r. by apply (Hstep d w asked1 asked2).
    - destruct (enableFallback m); [|done].
      destruct (scan m pref (getSortedAdapters m) asked2)
        as [[[k a']|] asked3] eqn:Hscan; [|done].
      simpl in Hr. injection Hr as ->.
      apply scan_found in Hscan as (i & Hi & -> & He & _). split.
      + exists k. apply list_elem_of_lookup_2 in Hi.
        rewrite ManagerFacts.getSortedAdapters_eq in Hi.
        by rewrite JSFacts.Array_sort_perm in Hi.
      + simpl. eexists. split; [done|].
        unfold eligible, ask in He. simpl in He.
        by apply andb_true_iff in He as [[? _]%andb_true_iff _]. }
  split; [done|]. split; [done|].
  intros Hsteady. destruct H2 as (before & _ & Hready). by rewrite Hsteady in Hready.
Qed.

Lemma resolver_returns_registered_ready_witness :
  (∃ k, (k, Sample.instance 1 "B" true) ∈ adapters Sample.tied)
  ∧ isReady (Sample.instance 1 "B" true) = true.
Proof.
  destruct (resolver_returns_registered_ready Sample.tied (Some "x")
              (Sample.instance 1 "B" true) eq_refl) as (H1 & _ & H3).
  split; [exact H1 | apply H3; reflexivity].
Defined.

(** X2.  With fallback enabled [getAdapterWithFallback] never throws: it
    returns an adapter or [null]. *)
Theorem fallback_enabled_never_throws (m : StorageManager) (pref : option string) :
  enableFallback m = true →
  ∃ r, (getAdapterWithFallback m pref).1 = Return r.
Proof.
  intros Hf. unfold getAdapterWithFallback.
  destruct (getAdapterWithFallbackAsked_cases m pref)
    as [(p & w & r & asked1 & _ & _ & Hs & ->)
       |[(d & w & log1 & asked1 & r & asked2 & _ & _ & _ & Hs & ->)
        |(log1 & asked1 & log2 & asked2 & _ & _ & _ & ->)]]; simpl.
  - apply tryNamed_leaves in Hs as [(a & -> & _)|(e & _ & ?)]; [eauto|congruence].
  - apply tryNamed_leaves in Hs as [(a & -> & _)|(e & _ & ?)]; [eauto|congruence].
  - rewrite Hf. destruct (scan _ _ _ _) as [[[k a]|] asked3]; simpl; eauto.
Qed.

Lemma fallback_enabled_never_throws_witness :
  ∃ r, (getAdapterWithFallback Sample.tied (Some "nowhere")).1 = Return r.
Proof.
  apply (fallback_enabled_never_throws Sample.tied (Some "nowhere")). reflexivity.
Defined.

(** X3.  A preferred name that [getAdapter] resolves, and whose adapter
    answers ready again when the resolver asks it a second time, wins: that
    adapter is returned without a warning and no other adapter is asked,
    whatever the default, the priorities and the fallback flag.  If the
    second answer is not ready, the preferred step ends without a throw and
    without a warning, fallback enabled or not, and the resolver goes on. *)
Theorem preferred_ready_wins (m : StorageManager) (p : string) (a : IStorageAdapter) :
  JS.truthy p = true → getAdapter m p = Return a →
  (readiness a 1 = true →
     getAdapterWithFallbackAsked m (Some p)
     = ((Return (Some a), []), [oid a; oid a]))
  ∧ (readiness a 1 = false →
       preferredStep m (Some p) [] = (GoOn [], [oid a; oid a])
       ∧ ∀ e, (getAdapterWithFallback m (Some p)).1 = Throw e →
              ∃ d, defaultAdapter m = Some d ∧ p ≠ d ∧ enableFallback m = false).
Proof.
  intros Hp Hg. split; intros Hr.
  - unfold getAdapterWithFallbackAsked, preferredStep.
    by rewrite Hp, (ManagerFacts.tryNamed_return _ _ _ _ Hg), Hr.
  - assert (preferredStep m (Some p) [] = (GoOn [], [oid a; oid a])) as Hstep.
    { unfold preferredStep.
      by rewrite Hp, (ManagerFacts.tryNamed_return _ _ _ _ Hg), Hr. }
    split; [done|]. intros e.
    unfold getAdapterWithFallback, getAdapterWithFallbackAsked. rewrite Hstep.
    unfold defaultStep. destruct (defaultAdapter m) as [d|] eqn:Hd.
    + simpl. rewrite Hp. simpl.
      destruct (JS.truthy d) eqn:Htd; simpl.
      * case_bool_decide as Hpd; simpl.
        { destruct (enableFallback m); [|done].
          by destruct (scan _ _ _ _) as [[[]|] ?]. }
        destruct (tryNamed m d _ _) as [[r|log2] asked2] eqn:Hs; simpl.
        { intros ->. apply tryNamed_leaves in Hs as [(? & [=] & _)|(e' & _ & Hf)].
          exists d. split; [done|]. split; [congruence|done]. }
        destruct (enableFallback m); [|done].
        by destruct (scan _ _ _ _) as [[[]|] ?].
      * destruct (enableFallback m); [|done].
        by destruct (scan _ _ _ _) as [[[]|] ?].
    + destruct (enableFallback m); [|done].
      by destruct (scan _ _ _ _) as [[[]|] ?].
Qed.

Lemma preferred_ready_wins_witness :
  getAdapterWithFallbackAsked Sample.tied (Some "A")
  = ((Return (Some (Sample.instance 2 "A" true)), []), [2; 2]).
Proof.
  apply (proj1 (preferred_ready_wins Sample.tied "A" (Sample.instance 2 "A" true)
                  eq_refl eq_refl)).
  reflexivity.
Defined.

(** X4.  With fallback disabled, no preferred name and no default name,
    the resolver returns [null] without looking at the registered adapters,
    ready or not. *)
Theorem unnamed_without_fallback_is_null (m : StorageManager) (pref : option string) :
  enableFallback m = false →
  JS.truthy_opt pref = false →
  JS.truthy_opt (defaultAdapter m) = false →
  getAdapterWithFallback m pref = (Return None, []).
Proof.
  intros Hf Hp Hd.
  unfold getAdapterWithFallback, getAdapterWithFallbackAsked, preferredStep,
    defaultStep.
  rewrite Hf.
  destruct pref as [p|]; simpl in Hp; rewrite ?Hp;
    (destruct (defaultAdapter m) as [d|]; simpl in Hd; rewrite ?Hd; done).
Qed.

Lemma unnamed_without_fallback_is_null_witness :
  getAdapterWithFallback Sample.strict None = (Return None, [])
  ∧ getReadyAdapters Sample.strict = ["local"].
Proof.
  split; [|reflexivity].
  apply (unnamed_without_fallback_is_null Sample.strict None); reflexivity.
Defined.

Lemma find_snoc {A} (f : A → bool) (l : list A) (x : A) :
  List.find f (l ++ [x])
  = match List.find f l with Some y => Some y | None => if f x then Some x else None end.
Proof.
  induction l as [|y r IH]; simpl; [done|]. by destruct (f y).
Qed.

(** The constructor keeps, for each name, the last record of the list. *)
Lemma configs_lookup (cfgs : list AdapterConfig) (acc : JS.Map AdapterConfig)
    (k : string) :
  JS.Map_get
    (fold_left (λ acc c, JS.Map_set acc (name c) c) cfgs acc) k
  = match List.find (λ c, bool_decide (name c = k)) (rev cfgs) with
    | Some c => Some c
    | None => JS.Map_get acc k
    end.
Proof.
  revert acc. induction cfgs as [|c r IH]; intros acc; simpl; [done|].
  rewrite IH, find_snoc.
  destruct (List.find _ (rev r)); [done|].
  case_bool_decide as Hk.
  - by rewrite <- Hk, JSFacts.Map_get_set_eq.
  - by rewrite JSFacts.Map_get_set_ne.
Qed.

(** Where the configuration spells its names in lower case, the priority
    the sort reads for a stored key is the configured one. *)
Lemma priorityOf_configured (cfg : StorageManagerConfig) (m : StorageManager)
    (k : string) :
  Forall (λ c, JS.toLowerCase (name c) = name c) (cfg_adapters cfg) →
  adapterConfigs m = adapterConfigs (new (Some cfg)) →
  JS.toLowerCase k = k →
  priorityOf m k = configuredPriority cfg k.
Proof.
  intros Hnames Hcfg Hk. unfold priorityOf, configuredPriority.
  rewrite Hcfg. simpl. rewrite configs_lookup. simpl. rewrite Hk.
  apply Forall_rev in Hnames.
  induction Hnames as [|c r Hc _ IH]; simpl; [done|].
  rewrite Hc. by case_bool_decide.
Qed.

(** X5.  Where the configuration spells its names in lower case, the list
    the loop runs through is the registered adapters in descending order
    of configured priority, adapters of equal priority in registration
    order.  An adapter returned as fallback is the first of that list to
    pass the test of the loop (ready when asked, named neither like the
    preferred nor like the default adapter) when its turn comes: every
    registered adapter with a higher configured priority was tried before
    it and failed the test.  With fallback enabled, [null] is returned only
    if every registered adapter failed the test. *)
Theorem scan_prefers_highest_priority (cfg : StorageManagerConfig)
    (m : StorageManager) (pref : option string) :
  Forall (λ c, JS.toLowerCase (name c) = name c) (cfg_adapters cfg) →
  adapterConfigs m = adapterConfigs (new (Some cfg)) →
  keysNormal m →
  let sorted := getSortedAdapters m in
  let asked := askedBeforeScan m pref in
  sorted ≡ₚ adapters m
  ∧ StronglySorted
      (λ e1 e2, (configuredPriority cfg e2.1 ≤ configuredPriority cfg e1.1)%Z)
      sorted
  ∧ (∀ z, filter (λ e, configuredPriority cfg e.1 = z) sorted
          = filter (λ e, configuredPriority cfg e.1 = z) (adapters m))
  ∧ (∀ a k log,
       getAdapterWithFallback m pref
       = (Return (Some a), log ++ [("Using fallback adapter: " +:+ k, None)]) →
       ∃ i, sorted !! i = Some (k, a)
         ∧ accepted m pref (turn asked sorted i) (k, a)
         ∧ (∀ j e, (j < i)%nat → sorted !! j = Some e →
              refused m pref (turn asked sorted j) e)
         ∧ ∀ e, e ∈ adapters m →
             (configuredPriority cfg k < configuredPriority cfg e.1)%Z →
             ∃ j, (j < i)%nat ∧ sorted !! j = Some e)
  ∧ (enableFallback m = true →
     (getAdapterWithFallback m pref).1 = Return None →
     ∀ j e, sorted !! j = Some e → refused m pref (turn asked sorted j) e).
Proof.
  intros Hnames Hcfg [Hlower _] sorted asked.
  assert (sorted
          = JS.Array_sort (JS.byRankDesc (λ e, configuredPriority cfg e.1))
              (adapters m)) as Hsorted.
  { subst sorted. rewrite ManagerFacts.getSortedAdapters_eq.
    apply JSMore.Array_sort_ext. apply Forall_forall. intros [k a] Hin. simpl.
    apply (priorityOf_configured cfg m k Hnames Hcfg).
    apply (proj1 (Forall_forall _ _) Hlower).
    apply list_elem_of_fmap. by exists (k, a). }
  assert (sorted ≡ₚ adapters m) as Hperm.
  { rewrite Hsorted. apply JSFacts.Array_sort_perm. }
  assert (StronglySorted
            (λ e1 e2, (configuredPriority cfg e2.1 ≤ configuredPriority cfg e1.1)%Z)
            sorted) as Hs.
  { rewrite Hsorted.
    apply (JSFacts.Array_sort_sorted (λ e, configuredPriority cfg e.1)). }
  split; [done|]. split; [done|]. split.
  { intros z. rewrite Hsorted.
    apply (JSFacts.Array_sort_stable (λ e, configuredPriority cfg e.1)). }
  split.
  - intros a k log Hr. unfold getAdapterWithFallback in Hr.
    destruct (getAdapterWithFallbackAsked_cases m pref)
      as [(p & w & r & asked1 & _ & _ & _ & H)
         |[(d & w & log1 & asked1 & r & asked2 & _ & _ & H1 & _ & H)
          |(log1 & asked1 & log2 & asked2 & _ & _ & Hasked & H)]];
      rewrite H in Hr; simpl in Hr.
    + injection Hr as _ Hlog. by destruct log.
    + injection Hr as _ Hlog. exfalso.
      unfold preferredStep in H1.
      destruct pref as [p|]; [destruct (JS.truthy p)|];
        [apply tryNamed_goes_on in H1 as [->| ->]
        |injection H1 as <- _ | injection H1 as <- _];
        try (by destruct log).
      destruct log as [|? [|? ?]]; simpl in Hlog; discriminate Hlog.
    + destruct (enableFallback m); [|done].
      fold sorted in Hr. fold asked in Hasked. subst asked2.
      destruct (scan m pref sorted asked) as [[[k' a']|] asked3] eqn:Hscan;
        [|done].
      simpl in Hr. injection Hr as -> Hlog.
      rewrite app_assoc in Hlog. apply app_inj_tail in Hlog as [_ [= Hk]].
      apply (inj (String.app _)) in Hk as ->.
      apply scan_found in Hscan as (i & Hi & _ & He & Hbefore).
      exists i. split; [done|].
      split; [by apply ManagerFacts.eligible_accepted|].
      split; [intros j e Hj He'; by apply ManagerFacts.eligible_refused, (Hbefore j)|].
      intros e Hin Hlt. rewrite <- Hperm in Hin.
      apply list_elem_of_lookup_1 in Hin as [j Hj].
      assert (j < i)%nat as Hji.
      { destruct (decide (j < i)%nat) as [|Hge]; [done|]. exfalso.
        destruct (decide (j = i)) as [->|Hne].
        - rewrite Hi in Hj. injection Hj as <-. simpl in Hlt. lia.
        - assert (i < j)%nat as Hij by lia.
          pose proof (JSMore.StronglySorted_lookup _ _ _ _ _ _ Hs Hij Hi Hj) as Hle.
          simpl in Hle. lia. }
      by exists j.
  - intros Hf Hr. unfold getAdapterWithFallback in Hr.
    destruct (getAdapterWithFallbackAsked_cases m pref)
      as [(p & w & r & asked1 & _ & _ & Hstep & H)
         |[(d & w & log1 & asked1 & r & asked2 & _ & _ & _ & Hstep & H)
          |(log1 & asked1 & log2 & asked2 & _ & _ & Hasked & H)]];
      rewrite H in Hr; simpl in Hr.
    + subst r. by apply tryNamed_leaves in Hstep as [(? & [=] & _)|(? & [=] & _)].
    + subst r. by apply tryNamed_leaves in Hstep as [(? & [=] & _)|(? & [=] & _)].
    + rewrite Hf in Hr. fold sorted in Hr. fold asked in Hasked. subst asked2.
      intros j e Hj. apply ManagerFacts.eligible_refused. revert j e Hj.
      apply scan_none.
      by destruct (scan m pref sorted asked) as [[[k' a']|] asked3].
Qed.

Lemma ranked_names_lower :
  Forall (λ c, JS.toLowerCase (name c) = name c)
    (cfg_adapters (Sample.rankedConfig "b")).
Proof. by repeat constructor. Qed.

Lemma ranked_keysNormal : keysNormal (Sample.ranked "b").
Proof.
  split; simpl.
  - by repeat constructor.
  - apply (bool_decide_unpack _). by vm_compute.
Qed.

(** Priorities 5 and 1 configured in lower case: the adapter of priority 5,
    registered last, is the fallback returned. *)
Lemma scan_prefers_highest_priority_witness :
  ∃ i, getSortedAdapters (Sample.ranked "b") !! i
       = Some ("b", Sample.instance 2 "b" true)
    ∧ accepted (Sample.ranked "b") (Some "missing")
        (turn (askedBeforeScan (Sample.ranked "b") (Some "missing"))
           (getSortedAdapters (Sample.ranked "b")) i)
        ("b", Sample.instance 2 "b" true)
    ∧ (∀ j e, (j < i)%nat → getSortedAdapters (Sample.ranked "b") !! j = Some e →
         refused (Sample.ranked "b") (Some "missing")
           (turn (askedBeforeScan (Sample.ranked "b") (Some "missing"))
              (getSortedAdapters (Sample.ranked "b")) j) e)
    ∧ ∀ e, e ∈ adapters (Sample.ranked "b") →
        (configuredPriority (Sample.rankedConfig "b") "b"
         < configuredPriority (Sample.rankedConfig "b") e.1)%Z →
        ∃ j, (j < i)%nat ∧ getSortedAdapters (Sample.ranked "b") !! j = Some e.
Proof.
  apply (proj1 (proj2 (proj2 (proj2
           (scan_prefers_highest_priority (Sample.rankedConfig "b")
              (Sample.ranked "b") (Some "missing")
              ranked_names_lower eq_refl ranked_keysNormal))))
         (Sample.instance 2 "b" true) "b"
         [("Preferred adapter 'missing' not available, trying fallback", None)]).
  reflexivity.
Defined.

(** X6.  Without a default name, [getDefaultAdapter] hands out the adapter
    registered first without asking whether it is ready, so it can return
    an adapter that [getAdapter] refuses as not ready; with no adapter
    registered it throws a configuration error. *)
Theorem default_is_first_registered (m : StorageManager) :
  JS.truthy_opt (defaultAdapter m) = false →
  (∀ k a rest, adapters m = (k, a) :: rest →
     getDefaultAdapter m = Return a
     ∧ (isReady a = false → JS.toLowerCase k = k →
        getAdapter m k = Throw (notReady k)))
  ∧ (adapters m = [] →
     ∃ e, getDefaultAdapter m = Throw e ∧ isConfigurationError e = true
          ∧ Exn.message e
            = "No default adapter configured and no adapters available").
Proof.
  intros Hd. unfold getDefaultAdapter. rewrite Hd. simpl. split.
  - intros k a rest Hm. rewrite Hm. simpl. split; [done|].
    intros Hr Hk. unfold getAdapter. rewrite Hm, Hk. simpl.
    rewrite decide_True by done. by rewrite Hr.
  - intros ->. simpl. eauto.
Qed.

Lemma default_is_first_registered_witness :
  getDefaultAdapter Sample.strict = Return (Sample.instance 1 "s3" false)
  ∧ getAdapter Sample.strict "s3" = Throw (notReady "s3").
Proof.
  destruct (proj1 (default_is_first_registered Sample.strict eq_refl)
              "s3" (Sample.instance 1 "s3" false)
              [("local", Sample.instance 2 "local" true)] eq_refl) as [H1 H2].
  split; [exact H1 | by apply H2].
Defined.

(** X7.  [setDefaultAdapter] with a non-empty registered name stores the
    lower-cased name and leaves the adapters alone, after which
    [getDefaultAdapter] is [getAdapter] of that name; with an unregistered
    name it throws a configuration error. *)
Theorem setDefaultAdapter_then_default (m : StorageManager) (name : string) :
  JS.truthy name = true →
  (hasAdapter m name = true →
     ∃ m', setDefaultAdapter m name = Return m'
           ∧ defaultAdapter m' = Some (JS.toLowerCase name)
           ∧ adapters m' = adapters m
           ∧ enableFallback m' = enableFallback m
           ∧ getDefaultAdapter m' = getAdapter m (JS.toLowerCase name))
  ∧ (hasAdapter m name = false →
     ∃ e, setDefaultAdapter m name = Throw e ∧ isConfigurationError e = true).
Proof.
  intros Ht. unfold setDefaultAdapter. split; intros ->; simpl; [|eauto].
  eexists. repeat split.
  unfold getDefaultAdapter. simpl. by rewrite JSMore.truthy_toLowerCase, Ht.
Qed.

Lemma setDefaultAdapter_then_default_witness :
  ∃ m', setDefaultAdapter Sample.strict "LOCAL" = Return m'
        ∧ defaultAdapter m' = Some "local"
        ∧ adapters m' = adapters Sample.strict
        ∧ enableFallback m' = enableFallback Sample.strict
        ∧ getDefaultAdapter m' = getAdapter Sample.strict "local".
Proof.
  apply (proj1 (setDefaultAdapter_then_default Sample.strict "LOCAL" eq_refl)).
  reflexivity.
Defined.

(** X8.  [removeAdapter] forgets the name in every casing: the adapter is no
    longer registered, its configuration record is gone, so that registering
    a factory for the name afterwards creates no adapter; other names are
    untouched, and a default equal to the lower-cased name is reset. *)
Theorem removeAdapter_forgets (m : StorageManager) (n : string) :
  hasAdapter (removeAdapter m n) n = false
  ∧ (∀ f, adapters (registerFactory (removeAdapter m n) n f).1
          = adapters (removeAdapter m n)
          ∧ (registerFactory (removeAdapter m n) n f).2 = [])
  ∧ (∀ n', JS.toLowerCase n' ≠ JS.toLowerCase n →
       hasAdapter (removeAdapter m n) n' = hasAdapter m n'
       ∧ isAdapterReady (removeAdapter m n) n' = isAdapterReady m n')
  ∧ (defaultAdapter m = Some (JS.toLowerCase n) →
     defaultAdapter (removeAdapter m n) = None).
Proof.
  split; [|split; [|split]].
  - unfold hasAdapter, JS.Map_has. simpl. by rewrite JSFacts.Map_get_delete_eq.
  - intros f. unfold registerFactory. simpl.
    by rewrite JSFacts.Map_get_delete_eq.
  - intros n' Hne. unfold hasAdapter, isAdapterReady, JS.Map_has. simpl.
    by rewrite JSFacts.Map_get_delete_ne.
  - intros Hd. simpl. by rewrite bool_decide_eq_true_2.
Qed.

Lemma removeAdapter_forgets_witness :
  hasAdapter (removeAdapter Sample.strict "S3") "local" = hasAdapter Sample.strict "local"
  ∧ isAdapterReady (removeAdapter Sample.strict "S3") "local"
    = isAdapterReady Sample.strict "local".
Proof.
  apply (proj1 (proj2 (proj2 (removeAdapter_forgets Sample.strict "S3"))) "local").
  vm_compute. discriminate.
Defined.

(** X9.  A manager built from a configuration and then given a factory for
    a name runs the factory on the configuration blob of the last record
    whose name is exactly that name lower-cased, provided the record is not
    disabled; the adapter the factory returns is then what [getAdapter]
    yields for the name (if ready).  A disabled record leaves the name
    unregistered. *)
Theorem configured_factory_registers (cfg : StorageManagerConfig) (n : string)
    (f : AdapterFactory) (c : AdapterConfig) :
  List.find (λ c, bool_decide (name c = JS.toLowerCase n)) (rev (cfg_adapters cfg))
  = Some c →
  (∀ a, notDisabled c = true → f (config c) = Return a →
     (registerFactory (new (Some cfg)) n f).2 = []
     ∧ adapters (registerFactory (new (Some cfg)) n f).1 = [(JS.toLowerCase n, a)]
     ∧ getAdapter (registerFactory (new (Some cfg)) n f).1 n
       = if isReady a then Return a else Throw (notReady n))
  ∧ (notDisabled c = false →
     hasAdapter (registerFactory (new (Some cfg)) n f).1 n = false)
  ∧ (∀ e, notDisabled c = true → f (config c) = Throw e →
     hasAdapter (registerFactory (new (Some cfg)) n f).1 n = false
     ∧ (registerFactory (new (Some cfg)) n f).2
       = [("Failed to initialize adapter '" +:+ n +:+ "':", Some e)]).
Proof.
  intros Hfind.
  assert (JS.Map_get (adapterConfigs (new (Some cfg))) (JS.toLowerCase n) = Some c)
    as Hget by (simpl; by rewrite configs_lookup, Hfind).
  unfold registerFactory. rewrite Hget. split; [|split].
  - intros a -> ->. simpl. repeat split.
    unfold getAdapter. simpl. rewrite decide_True by done.
    by destruct (isReady a).
  - by intros ->.
  - by intros e -> ->.
Qed.

Lemma configured_factory_registers_witness :
  getAdapter (registerFactory (new (Some Sample.lowerCaseConfig)) "S3"
                Sample.s3Factory).1 "S3"
  = Return (Sample.instance 7 "s3" true).
Proof.
  apply (proj1 (configured_factory_registers Sample.lowerCaseConfig "S3"
                  Sample.s3Factory (Sample.configOf "s3" (Some true) (Some 1%Z))
                  eq_refl) (Sample.instance 7 "s3" true)); reflexivity.
Defined.

Lemma keysNormal_set (m : JS.Map IStorageAdapter) (n : string) (a : IStorageAdapter) :
  Forall (λ k, JS.toLowerCase k = k) (JS.Map_keys m) ∧ NoDup (JS.Map_keys m) →
  Forall (λ k, JS.toLowerCase k = k) (JS.Map_keys (JS.Map_set m (JS.toLowerCase n) a))
  ∧ NoDup (JS.Map_keys (JS.Map_set m (JS.toLowerCase n) a)).
Proof.
  intros [Hl Hnd]. split; [|by apply JSMore.NoDup_Map_keys_set].
  rewrite JSMore.Map_keys_set. destruct (JS.Map_has _ _); [done|].
  apply Forall_app. split; [done|].
  constructor; [apply JSMore.toLowerCase_idemp | constructor].
Qed.

(** X10.  Every operation of the manager keeps the keys of the registered
    adapters lower-case and pairwise distinct, starting from a new manager. *)
Theorem keysNormal_preserved :
  (∀ c, keysNormal (new c))
  ∧ ∀ m, keysNormal m →
      (∀ n a, keysNormal (registerAdapter m n a))
      ∧ (∀ n f, keysNormal (registerFactory m n f).1)
      ∧ (∀ n, keysNormal (removeAdapter m n))
      ∧ keysNormal (clear m)
      ∧ (∀ b, keysNormal (setFallbackEnabled m b))
      ∧ (∀ n m', setDefaultAdapter m n = Return m' → keysNormal m').
Proof.
  split; [intros [c|]; split; simpl; constructor|].
  intros m Hm.
  assert (∀ n f, keysNormal (registerFactory m n f).1) as Hfactory.
  { intros n f. unfold registerFactory.
    destruct (JS.Map_get (adapterConfigs m) _) as [c|]; [|apply Hm].
    destruct (notDisabled c); [|apply Hm].
    destruct (f (config c)); [|apply Hm]. by apply keysNormal_set. }
  assert (∀ n, keysNormal (removeAdapter m n)) as Hremove.
  { intros n. destruct Hm as [Hl Hnd]. split; simpl.
    - rewrite JSMore.Map_keys_delete. apply Forall_forall. intros k Hk.
      rewrite list_elem_of_In, filter_In, <- list_elem_of_In in Hk.
      destruct Hk as [Hk _]. by apply (proj1 (Forall_forall _ _) Hl).
    - by apply JSMore.NoDup_Map_keys_delete. }
  assert (∀ n m', setDefaultAdapter m n = Return m' → keysNormal m') as Hdefault.
  { intros n m'. unfold setDefaultAdapter. destruct (negb _); [done|].
    intros [= <-]. apply Hm. }
  split; [intros n a; by apply keysNormal_set|].
  split; [done|]. split; [done|].
  split; [split; constructor|].
  split; [intros b; apply Hm | done].
Qed.

Lemma keysNormal_preserved_witness : keysNormal Sample.strict.
Proof.
  apply (proj2 keysNormal_preserved).
  apply (proj2 keysNormal_preserved).
  apply (proj1 keysNormal_preserved).
Defined.




(** X12.  Registering an instance under a name that is already taken (in
    any casing) replaces the instance and keeps the name's place in the
    registration order; a new name goes to the end.  Either way the
    instance is what the name now resolves to. *)
Theorem registerAdapter_keeps_position (m : StorageManager) (n : string)
    (a : IStorageAdapter) :
  getAvailableAdapters (registerAdapter m n a)
  = (if hasAdapter m n then getAvailableAdapters m
     else getAvailableAdapters m ++ [JS.toLowerCase n])
  ∧ JS.Map_get (adapters (registerAdapter m n a)) (JS.toLowerCase n) = Some a
  ∧ (∀ n', JS.toLowerCase n' ≠ JS.toLowerCase n →
       JS.Map_get (adapters (registerAdapter m n a)) (JS.toLowerCase n')
       = JS.Map_get (adapters m) (JS.toLowerCase n')).
Proof.
  unfold getAvailableAdapters, hasAdapter, registerAdapter. simpl.
  split; [apply JSMore.Map_keys_set|]. split.
  - apply JSFacts.Map_get_set_eq.
  - intros n' Hne. by apply JSFacts.Map_get_set_ne.
Qed.

Lemma registerAdapter_keeps_position_witness :
  JS.Map_get (adapters (registerAdapter Sample.strict "S3" (Sample.instance 9 "s3" true)))
    (JS.toLowerCase "local")
  = JS.Map_get (adapters Sample.strict) (JS.toLowerCase "local").
Proof.
  apply (proj2 (proj2 (registerAdapter_keeps_position Sample.strict "S3"
                         (Sample.instance 9 "s3" true))) "local").
  vm_compute. discriminate.
Defined.
End ManagerMore.

(** ** More on the instrumented operations *)

Module EnvelopeMore.
Import Exn.
Import Types.
Import Bus.
Import Envelope.
Import BusFacts.
Import EnvelopeFacts.

(** An invocation is the shared body started in a world that differs from
    the caller's at most by one drawn id. *)
Lemma invoke_as_hooked (rt : Runtime) (a : BaseStorageAdapter) (req : Request)
    (w : World) :
  ∃ cid w0,
    invoke rt a req w = hooked rt a req cid w0
    ∧ ticks w0 = ticks w ∧ console w0 = console w
    ∧ emitted w0 = emitted w ∧ invoked w0 = invoked w.
Proof.
  destruct (correlationIdFor_frame rt req w) as (cid & w0 & Hc & H).
  exists cid, w0. split; [|exact H].
  rewrite invoke_eq. unfold bind at 1. by rewrite Hc.
Qed.

Lemma hooked_outcome (rt : Runtime) (a : BaseStorageAdapter) (req : Request)
    (cid : string) (w : World) :
  (∀ r, (hooked rt a req cid w).1 = Return r →
     perform a (invoked w) req = Return r
     ∧ invoked (hooked rt a req cid w).2 = invoked w ++ [req]
     ∧ ∃ d0 d1,
         emitted (hooked rt a req cid w).2
         = emitted w ++ [(beforeEvent req, d0); (successEvent req, d1)]
         ∧ Bus.response d1 = Some r ∧ Bus.error d1 = None)
  ∧ (∀ e, (hooked rt a req cid w).1 = Throw e →
       ∃ d e0,
         last (emitted (hooked rt a req cid w).2) = Some (failedEvent req, d)
         ∧ Bus.error d = Some e0
         ∧ (e = e0 ∨ (Bus.emit (eventEmitter a) (failedEvent req) d).1 = Throw e)).
Proof.
  split.
  - intros r. run_hooked; intros [=]; subst.
    split; [done|]. split; [done|].
    eexists _, _. rewrite <- app_assoc. by repeat split.
  - intros e. run_hooked; intros [=]; subst;
      rewrite <- ?app_assoc; rewrite last_app; simpl;
      eexists _, _; (split; [reflexivity|]); (split; [reflexivity|]);
      first [by left | right; by rewrite Hemit0 | right; by rewrite Hemit1
            | right; by rewrite Hemit].
Qed.

(** X13.  What an invocation hands back matches what it announced.  If it
    returns a response, the backend was called once and returned that very
    response, and the events emitted are the pre-event and one success
    event carrying it, no failure event.  If it throws, the last event
    emitted is the operation's failure event, and the error thrown is the
    one that event carries or the rejection of that event's own emission. *)
Theorem outcome_matches_events (rt : Runtime) (a : BaseStorageAdapter)
    (req : Request) (w : World) :
  (∀ r, (invoke rt a req w).1 = Return r →
     perform a (invoked w) req = Return r
     ∧ invoked (invoke rt a req w).2 = invoked w ++ [req]
     ∧ ∃ d0 d1,
         emitted (invoke rt a req w).2
         = emitted w ++ [(beforeEvent req, d0); (successEvent req, d1)]
         ∧ Bus.response d1 = Some r ∧ Bus.error d1 = None)
  ∧ (∀ e, (invoke rt a req w).1 = Throw e →
       ∃ d e0,
         last (emitted (invoke rt a req w).2) = Some (failedEvent req, d)
         ∧ Bus.error d = Some e0
         ∧ (e = e0 ∨ (Bus.emit (eventEmitter a) (failedEvent req) d).1 = Throw e)).
Proof.
  destruct (invoke_as_hooked rt a req w) as (cid & w0 & -> & _ & _ & <- & <-).
  apply hooked_outcome.
Qed.

Lemma outcome_matches_events_witness :
  perform Sample.plain (invoked Sample.world0) (Get "a.txt") = Return Sample.stored
  ∧ invoked (invoke Sample.runtime Sample.plain (Get "a.txt") Sample.world0).2
    = invoked Sample.world0 ++ [Get "a.txt"]
  ∧ ∃ d0 d1,
      emitted (invoke Sample.runtime Sample.plain (Get "a.txt") Sample.world0).2
      = emitted Sample.world0 ++ [(BEFORE_GET, d0); (AFTER_GET_SUCCESS, d1)]
      ∧ Bus.response d1 = Some Sample.stored ∧ Bus.error d1 = None.
Proof.
  apply (proj1 (outcome_matches_events Sample.runtime Sample.plain (Get "a.txt")
                  Sample.world0) Sample.stored).
  reflexivity.
Defined.

Lemma hooked_invoked (rt : Runtime) (a : BaseStorageAdapter) (req : Request)
    (cid : string) (w : World) :
  invoked (hooked rt a req cid w).2 = invoked w
  ∨ invoked (hooked rt a req cid w).2 = invoked w ++ [req].
Proof. run_hooked; auto. Qed.

(** Once the emission of the pre-event has completed, the backend is
    called. *)
Lemma hooked_started (rt : Runtime) (a : BaseStorageAdapter) (req : Request)
    (cid : string) (w : World) :
  (Bus.emit (eventEmitter a) (beforeEvent req)
     (beforeData a (clock rt (S (ticks w))) cid req)).1 = Return () →
  invoked (hooked rt a req cid w).2 = invoked w ++ [req].
Proof.
  intros Hpre. unfold hooked, try_catch, bind, Envelope.emit, performOp,
    Date_now, ret, throw. simpl.
  destruct (Bus.emit _ (beforeEvent req) _) as [c ls]. simpl in Hpre. subst c.
  simpl. destruct (perform a (invoked w) req) as [r|e]; simpl.
  - destruct (Bus.emit _ (successEvent req) _) as [[[]|e] ?]; simpl; [done|].
    by destruct (Bus.emit _ (failedEvent req) _) as [[[]|?] ?].
  - by destruct (Bus.emit _ (failedEvent req) _) as [[[]|?] ?].
Qed.

(** X14.  One invocation calls the backend at most once, with the request
    as the caller gave it, whatever the backend or the listeners do: never
    when the emission of the pre-event is rejected, and exactly once when
    that emission completes, as it does when no pre-event listener returns
    a rejected promise. *)
Theorem backend_called_at_most_once (rt : Runtime) (a : BaseStorageAdapter)
    (req : Request) (w : World) :
  (invoked (invoke rt a req w).2 = invoked w
   ∨ invoked (invoke rt a req w).2 = invoked w ++ [req])
  ∧ (∀ cid, (correlationIdFor rt req w).1 = Return cid →
       match (Bus.emit (eventEmitter a) (beforeEvent req)
                (beforeData a (clock rt (S (ticks w))) cid req)).1 with
       | Throw _ => invoked (invoke rt a req w).2 = invoked w
       | Return _ => invoked (invoke rt a req w).2 = invoked w ++ [req]
       end)
  ∧ (noRejection (eventEmitter a) (beforeEvent req) →
     invoked (invoke rt a req w).2 = invoked w ++ [req]).
Proof.
  split; [|split].
  - destruct (invoke_as_hooked rt a req w) as (cid & w0 & -> & _ & _ & _ & <-).
    apply hooked_invoked.
  - intros cid Hcid.
    destruct (correlationIdFor_frame rt req w)
      as (cid' & w0 & Hc & Ht & _ & _ & Hi).
    rewrite Hc in Hcid. injection Hcid as ->.
    rewrite invoke_eq. unfold bind at 1 2. rewrite Hc, <- Ht, <- Hi.
    destruct (Bus.emit _ _ _).1 as [[]|e] eqn:Hpre.
    + apply hooked_started. exact Hpre.
    + by destruct (hooked_vetoed rt a req cid w0 e Hpre) as (H1 & _).
  - destruct (invoke_as_hooked rt a req w) as (cid & w0 & -> & _ & _ & _ & <-).
    intros Hb. apply (hooked_unmasked rt a req cid w0 Hb).
Qed.

(** A vetoed upload never reaches the backend; an upload whose listeners
    only throw reaches it once. *)
Lemma backend_called_at_most_once_witness :
  invoked (invoke Sample.runtime Sample.guardedByAsyncValidator
             (Upload Sample.file None) Sample.world0).2 = []
  ∧ invoked (invoke Sample.runtime Sample.syncNotifiedDown
               (Upload Sample.file None) Sample.world0).2
    = [] ++ [Upload Sample.file None].
Proof.
  split.
  - apply (proj1 (proj2 (backend_called_at_most_once Sample.runtime
                           Sample.guardedByAsyncValidator
                           (Upload Sample.file None) Sample.world0))
             "uuid-0" eq_refl).
  - apply (proj2 (proj2 (backend_called_at_most_once Sample.runtime
                           Sample.syncNotifiedDown
                           (Upload Sample.file None) Sample.world0))).
    intros d. reflexivity.
Defined.

Lemma hooked_event_fields (rt : Runtime) (a : BaseStorageAdapter) (req : Request)
    (cid : string) (w : World) :
  ∃ evs, emitted (hooked rt a req cid w).2 = emitted w ++ evs
    ∧ Forall (λ ev, Bus.adapterName ev.2 = providerName a
                    ∧ Bus.request ev.2 = req
                    ∧ (Bus.response ev.2 = None ∨ Bus.error ev.2 = None)
                    ∧ (ev.1 = beforeEvent req ↔ Bus.duration ev.2 = None)) evs.
Proof.
  run_hooked; eexists; (split; [rewrite <- ?app_assoc; reflexivity|]);
    repeat (first [apply Forall_nil_2 | apply Forall_cons_2]); simpl;
    (split; [done|]); (split; [done|]); (split; [auto|]);
    destruct req; simpl; split; intros; done.
Qed.

(** X15.  Every event of an invocation names the adapter by its provider
    name and carries the request unchanged; no event carries both a
    response and an error, and the pre-event is the only one without a
    duration. *)
Theorem events_describe_the_invocation (rt : Runtime) (a : BaseStorageAdapter)
    (req : Request) (w : World) :
  ∃ evs, emitted (invoke rt a req w).2 = emitted w ++ evs
    ∧ Forall (λ ev, Bus.adapterName ev.2 = getProviderName a
                    ∧ Bus.request ev.2 = req
                    ∧ (Bus.response ev.2 = None ∨ Bus.error ev.2 = None)
                    ∧ (ev.1 = beforeEvent req ↔ Bus.duration ev.2 = None)) evs.
Proof.
  destruct (invoke_as_hooked rt a req w) as (cid & w0 & -> & _ & _ & <- & _).
  apply hooked_event_fields.
Qed.

Lemma hooked_timing (rt : Runtime) (a : BaseStorageAdapter) (req : Request)
    (cid : string) (w : World) :
  (∀ i j : nat, (i ≤ j)%nat → (clock rt i ≤ clock rt j)%Z) →
  ∃ evs, emitted (hooked rt a req cid w).2 = emitted w ++ evs
    ∧ Forall (λ ev, (clock rt (ticks w) ≤ Bus.timestamp ev.2)%Z
                    ∧ ∀ d, Bus.duration ev.2 = Some d →
                           (0 ≤ d ≤ Bus.timestamp ev.2 - clock rt (ticks w))%Z) evs
    ∧ StronglySorted Z.le (map (λ ev, Bus.timestamp ev.2) evs).
Proof.
  intros Hmono.
  assert (∀ k : nat, (clock rt (ticks w) ≤ clock rt (k + ticks w))%Z) as H0
    by (intros k; apply Hmono; lia).
  assert (∀ k l : nat, (k ≤ l)%nat →
            (clock rt (k + ticks w) ≤ clock rt (l + ticks w))%Z) as H1
    by (intros k l ?; apply Hmono; lia).
  pose proof (H0 1) as Ha. pose proof (H0 2) as Hb. pose proof (H0 3) as Hc.
  pose proof (H0 4) as Hd. pose proof (H0 5) as He.
  pose proof (H1 1 3 ltac:(lia)) as H13. pose proof (H1 2 3 ltac:(lia)) as H23.
  pose proof (H1 3 5 ltac:(lia)) as H35. pose proof (H1 4 5 ltac:(lia)) as H45.
  pose proof (H1 1 5 ltac:(lia)) as H15.
  simpl in *.
  run_hooked; eexists; (split; [rewrite <- ?app_assoc; reflexivity|]);
    (split;
     [repeat (first [apply Forall_nil_2 | apply Forall_cons_2]); simpl;
      (split; [lia|]); intros d' [=]; lia
     |simpl; repeat (first [apply SSorted_nil | apply SSorted_cons
                            | apply Forall_nil_2 | apply Forall_cons_2]); lia]).
Qed.

(** X16.  If the clock never runs backwards, the events of an invocation
    are stamped in the order they are emitted, none before [startTime], and
    every reported duration is non-negative and no longer than the time from
    [startTime] to the event's own timestamp. *)
Theorem durations_are_consistent (rt : Runtime) (a : BaseStorageAdapter)
    (req : Request) (w : World) :
  (∀ i j : nat, (i ≤ j)%nat → (clock rt i ≤ clock rt j)%Z) →
  ∃ evs, emitted (invoke rt a req w).2 = emitted w ++ evs
    ∧ Forall (λ ev, (clock rt (ticks w) ≤ Bus.timestamp ev.2)%Z
                    ∧ ∀ d, Bus.duration ev.2 = Some d →
                           (0 ≤ d ≤ Bus.timestamp ev.2 - clock rt (ticks w))%Z) evs
    ∧ StronglySorted Z.le (map (λ ev, Bus.timestamp ev.2) evs).
Proof.
  intros Hmono.
  destruct (invoke_as_hooked rt a req w) as (cid & w0 & -> & <- & _ & <- & _).
  by apply hooked_timing.
Qed.

Lemma sample_clock_monotone (i j : nat) :
  (i ≤ j)%nat → (clock Sample.runtime i ≤ clock Sample.runtime j)%Z.
Proof. simpl. lia. Qed.

Lemma durations_are_consistent_witness :
  ∃ evs,
    emitted (invoke Sample.runtime Sample.notifiedOnSuccess
               (Upload Sample.file None) Sample.world0).2
    = emitted Sample.world0 ++ evs
    ∧ Forall (λ ev, (clock Sample.runtime (ticks Sample.world0) ≤ Bus.timestamp ev.2)%Z
                    ∧ ∀ d, Bus.duration ev.2 = Some d →
                           (0 ≤ d ≤ Bus.timestamp ev.2
                                    - clock Sample.runtime (ticks Sample.world0))%Z) evs
    ∧ StronglySorted Z.le (map (λ ev, Bus.timestamp ev.2) evs).
Proof.
  apply (durations_are_consistent Sample.runtime Sample.notifiedOnSuccess
           (Upload Sample.file None) Sample.world0 sample_clock_monotone).
Defined.




Lemma emit_unheard (em : StorageEventEmitter) (event : StorageEvent) (d : EventData) :
  registered em event = [] → Bus.emit em event d = (Return (), []).
Proof.
  unfold registered, Bus.emit.
  destruct (JS.Map_get (listeners em) (eventKey event)) as [x|]; [|done].
  by intros ->.
Qed.

Lemma hooked_transparent (rt : Runtime) (a : BaseStorageAdapter) (req : Request)
    (cid : string) (w : World) :
  registered (eventEmitter a) (beforeEvent req) = [] →
  registered (eventEmitter a) (successEvent req) = [] →
  registered (eventEmitter a) (failedEvent req) = [] →
  (hooked rt a req cid w).1 = perform a (invoked w) req
  ∧ console (hooked rt a req cid w).2 = console w.
Proof.
  intros Hb Hs Hf.
  unfold hooked, try_catch, bind, Envelope.emit, performOp, Date_now, ret, throw.
  simpl. rewrite (emit_unheard _ _ _ Hb). simpl.
  destruct (perform a (invoked w) req) as [r|e]; simpl.
  - rewrite (emit_unheard _ _ _ Hs). simpl. by rewrite ?app_nil_r.
  - rewrite (emit_unheard _ _ _ Hf). simpl. by rewrite ?app_nil_r.
Qed.

(** X18.  An adapter whose bus has no listener for the three events of an
    operation is transparent for it: the invocation returns or throws
    exactly what the backend method returns or throws and logs nothing.
    This is in particular so after [setEventEmitter] with a fresh bus. *)
Theorem transparent_without_listeners (rt : Runtime) (a : BaseStorageAdapter)
    (req : Request) (w : World) :
  (registered (eventEmitter a) (beforeEvent req) = [] →
   registered (eventEmitter a) (successEvent req) = [] →
   registered (eventEmitter a) (failedEvent req) = [] →
   (invoke rt a req w).1 = perform a (invoked w) req
   ∧ console (invoke rt a req w).2 = console w)
  ∧ (invoke rt (setEventEmitter a Bus.empty) req w).1 = perform a (invoked w) req
  ∧ console (invoke rt (setEventEmitter a Bus.empty) req w).2 = console w.
Proof.
  split.
  - intros Hb Hs Hf.
    destruct (invoke_as_hooked rt a req w) as (cid & w0 & -> & _ & <- & _ & <-).
    by apply hooked_transparent.
  - destruct (invoke_as_hooked rt (setEventEmitter a Bus.empty) req w)
      as (cid & w0 & -> & _ & <- & _ & <-).
    by apply (hooked_transparent rt (setEventEmitter a Bus.empty)).
Qed.

Lemma transparent_without_listeners_witness :
  (invoke Sample.runtime Sample.notifiedOnSuccess (Get "a.txt") Sample.world0).1
  = perform Sample.notifiedOnSuccess (invoked Sample.world0) (Get "a.txt")
  ∧ console (invoke Sample.runtime Sample.notifiedOnSuccess (Get "a.txt")
               Sample.world0).2 = console Sample.world0.
Proof.
  apply (proj1 (transparent_without_listeners Sample.runtime
                  Sample.notifiedOnSuccess (Get "a.txt") Sample.world0));
    reflexivity.
Defined.
End EnvelopeMore.

(** ** More on the notification bus *)

Module BusMore.
Import Exn.
Import Bus.
Import Invariants.

Lemma eventKey_inj (e1 e2 : StorageEvent) : eventKey e1 = eventKey e2 → e1 = e2.
Proof. destruct e1, e2; simpl; intros H; first [reflexivity | discriminate H]. Qed.

Lemma registered_on (em : StorageEventEmitter) (event : StorageEvent)
    (l : EventListener) (event' : StorageEvent) :
  wellFormed em →
  registered (on em event l).1 event'
  = if decide (eventKey event' = eventKey event)
    then Set_add (registered em event) l
    else registered em event'.
Proof.
  intros Hwf. unfold on, registered, JS.Map_has.
  destruct (JS.Map_get (listeners em) (eventKey event)) as [a|] eqn:Hk; simpl.
  - rewrite Hk. simpl. destruct (Hwf _ _ Hk) as [Hlt Hinj].
    destruct (decide (eventKey event' = eventKey event)) as [Heq|Hne];
      [apply eventKey_inj in Heq as ->|].
    + rewrite Hk. unfold deref at 1. simpl.
      by rewrite list_lookup_insert_eq.
    + destruct (JS.Map_get (listeners em) (eventKey event')) as [a'|] eqn:Hk';
        [|done].
      unfold deref. simpl. rewrite list_lookup_insert_ne; [done|].
      intros <-. apply Hne. by apply Hinj.
  - rewrite JSFacts.Map_get_set_eq. simpl.
    assert (deref {| heap := heap em ++ [[]];
                     listeners := JS.Map_set (listeners em) (eventKey event)
                                    (length (heap em)) |} (length (heap em)) = [])
      as Hnew.
    { unfold deref. simpl. by rewrite lookup_app_r, Nat.sub_diag. }
    rewrite Hnew.
    destruct (decide (eventKey event' = eventKey event)) as [Heq|Hne];
      [apply eventKey_inj in Heq as ->|].
    + rewrite JSFacts.Map_get_set_eq. unfold deref. simpl.
      rewrite list_lookup_insert_eq; [done|]. rewrite length_app. simpl. lia.
    + rewrite JSFacts.Map_get_set_ne by (intros Heq; by apply Hne).
      destruct (JS.Map_get (listeners em) (eventKey event')) as [a'|] eqn:Hk';
        [|done].
      destruct (Hwf _ _ Hk') as [Hlt _].
      unfold deref. simpl.
      rewrite list_lookup_insert_ne by lia. by rewrite lookup_app_l.
Qed.

Lemma registered_off (em : StorageEventEmitter) (event : StorageEvent)
    (l : EventListener) (event' : StorageEvent) :
  wellFormed em →
  registered (off em event l) event'
  = if decide (eventKey event' = eventKey event)
    then Set_delete (registered em event) l
    else registered em event'.
Proof.
  intros Hwf. unfold off, registered.
  destruct (JS.Map_get (listeners em) (eventKey event)) as [a|] eqn:Hk.
  - destruct (Hwf _ _ Hk) as [Hlt Hinj].
    set (s := Set_delete (deref em a) l).
    destruct (decide (eventKey event' = eventKey event)) as [Heq|Hne];
      [apply eventKey_inj in Heq as ->|].
    + destruct (length s =? 0)%nat eqn:Hlen; simpl.
      * rewrite JSFacts.Map_get_delete_eq.
        apply Nat.eqb_eq in Hlen. by destruct s.
      * rewrite Hk. unfold deref. simpl. by rewrite list_lookup_insert_eq.
    + assert (eventKey event ≠ eventKey event') as Hkne
        by (intros Heq; by apply Hne).
      assert (∀ a', JS.Map_get (listeners em) (eventKey event') = Some a' →
                default [] (<[a := s]> (heap em) !! a') = deref em a') as Hother.
      { intros a' Ha'. unfold deref. rewrite list_lookup_insert_ne; [done|].
        intros <-. apply Hkne. symmetry. by apply Hinj. }
      destruct (length s =? 0)%nat; simpl.
      * rewrite JSFacts.Map_get_delete_ne by done.
        destruct (JS.Map_get _ (eventKey event')) as [a'|] eqn:Ha'; [|done].
        by apply Hother.
      * destruct (JS.Map_get _ (eventKey event')) as [a'|] eqn:Ha'; [|done].
        by apply Hother.
  - destruct (decide (eventKey event' = eventKey event)) as [Heq|Hne]; [|done].
    by rewrite Heq, Hk.
Qed.

Lemma Set_delete_add_new (s : list EventListener) (l : EventListener) :
  existsb (same l) s = false → Set_delete (Set_add s l) l = s.
Proof.
  intros Hnew. unfold Set_add, Set_delete. rewrite Hnew.
  rewrite List.filter_app. simpl. unfold same at 2. rewrite Nat.eqb_refl. simpl.
  rewrite app_nil_r.
  induction s as [|x r IH]; simpl in *; [done|].
  apply orb_false_iff in Hnew as [Hx Hr]. rewrite Hx. simpl. by rewrite IH.
Qed.

Lemma Set_add_idemp (s : list EventListener) (l : EventListener) :
  Set_add (Set_add s l) l = Set_add s l.
Proof.
  unfold Set_add. destruct (existsb (same l) s) eqn:He; [by rewrite He|].
  rewrite existsb_app. simpl. unfold same at 2. rewrite Nat.eqb_refl.
  by rewrite orb_true_r.
Qed.

Lemma Set_add_nonempty (s : list EventListener) (l : EventListener) :
  Set_add s l ≠ [].
Proof.
  unfold Set_add. destruct (existsb (same l) s) eqn:He.
  - by destruct s.
  - by destruct s.
Qed.

Lemma Set_delete_gone (s : list EventListener) (l : EventListener) :
  existsb (same l) (Set_delete s l) = false.
Proof.
  unfold Set_delete. induction s as [|x r IH]; simpl; [done|].
  destruct (same l x) eqn:Hx; simpl; [done|]. by rewrite Hx.
Qed.

Lemma wellFormed_on (em : StorageEventEmitter) (event : StorageEvent)
    (l : EventListener) :
  wellFormed em → wellFormed (on em event l).1.
Proof.
  intros Hwf. unfold on, JS.Map_has.
  destruct (JS.Map_get (listeners em) (eventKey event)) as [a|] eqn:Hk; simpl.
  - intros k0 a0 H0. simpl. rewrite length_insert. by apply Hwf.
  - intros k0 a0. simpl. rewrite length_insert, length_app. simpl.
    destruct (decide (eventKey event = k0)) as [<-|Hne].
    + rewrite JSFacts.Map_get_set_eq. intros [= <-]. split; [lia|].
      intros k' Hk'.
      destruct (decide (eventKey event = k')) as [|Hne']; [done|].
      rewrite JSFacts.Map_get_set_ne in Hk' by done.
      destruct (Hwf _ _ Hk') as [? _]. lia.
    + rewrite JSFacts.Map_get_set_ne by done. intros H0.
      destruct (Hwf _ _ H0) as [Hlt Hinj]. split; [lia|].
      intros k' Hk'.
      destruct (decide (eventKey event = k')) as [<-|Hne'].
      * rewrite JSFacts.Map_get_set_eq in Hk'. injection Hk' as <-. lia.
      * rewrite JSFacts.Map_get_set_ne in Hk' by done. by apply Hinj.
Qed.

Lemma nonEmptySets_on (em : StorageEventEmitter) (event : StorageEvent)
    (l : EventListener) :
  sound em → nonEmptySets (on em event l).1.
Proof.
  intros [Hwf Hne]. unfold on, JS.Map_has.
  destruct (JS.Map_get (listeners em) (eventKey event)) as [a|] eqn:Hk; simpl.
  - intros k0 a0 H0. simpl in H0. unfold deref. simpl.
    destruct (Hwf _ _ Hk) as [Hlt _].
    destruct (decide (a0 = a)) as [->|Hna].
    + rewrite Hk. simpl. rewrite list_lookup_insert_eq by done. simpl.
      apply Set_add_nonempty.
    + rewrite Hk. simpl. rewrite list_lookup_insert_ne by done.
      by apply (Hne k0).
  - intros k0 a0. simpl. rewrite JSFacts.Map_get_set_eq. simpl.
    unfold deref. simpl.
    destruct (decide (eventKey event = k0)) as [<-|Hnk].
    + rewrite JSFacts.Map_get_set_eq. intros [= <-].
      rewrite list_lookup_insert_eq by (rewrite length_app; simpl; lia).
      simpl. apply Set_add_nonempty.
    + rewrite JSFacts.Map_get_set_ne by done. intros H0.
      destruct (Hwf _ _ H0) as [Hlt _].
      rewrite list_lookup_insert_ne by lia. rewrite lookup_app_l by done.
      by apply (Hne k0).
Qed.

Lemma issued_on (em : StorageEventEmitter) (event : StorageEvent)
    (l : EventListener) :
  wellFormed em → issued (on em event l).1 (on em event l).2
                  ∧ current (on em event l).1 (on em event l).2.
Proof.
  intros Hwf. pose proof (wellFormed_on em event l Hwf) as Hwf'.
  assert (current (on em event l).1 (on em event l).2) as Hcur.
  { unfold current, on, JS.Map_has. simpl.
    destruct (JS.Map_get (listeners em) (eventKey event)) as [a|] eqn:Hk; simpl.
    - by rewrite Hk.
    - by rewrite JSFacts.Map_get_set_eq. }
  split; [|done]. exact (Hwf' _ _ Hcur).
Qed.

(** Dropping entries of the map and rewriting one allocated set keeps the
    emitter well formed. *)
Lemma wellFormed_shrink (em : StorageEventEmitter) (h : list (list EventListener))
    (ls : JS.Map nat) :
  wellFormed em → length h = length (heap em) →
  (∀ k a, JS.Map_get ls k = Some a → JS.Map_get (listeners em) k = Some a) →
  wellFormed {| heap := h; listeners := ls |}.
Proof.
  intros Hwf Hlen Hsub k a Hk. simpl in *. rewrite Hlen.
  destruct (Hwf _ _ (Hsub _ _ Hk)) as [Hlt Hinj]. split; [done|].
  intros k' Hk'. by apply Hinj, Hsub.
Qed.

Lemma Map_delete_sub {V} (m : JS.Map V) (k k0 : string) (v : V) :
  JS.Map_get (JS.Map_delete m k) k0 = Some v → JS.Map_get m k0 = Some v ∧ k0 ≠ k.
Proof.
  destruct (decide (k = k0)) as [<-|Hne].
  - by rewrite JSFacts.Map_get_delete_eq.
  - rewrite JSFacts.Map_get_delete_ne by done. intros H. split; [done|congruence].
Qed.

Lemma wellFormed_unsubscribe (em : StorageEventEmitter) (u : Unsubscribe) :
  wellFormed em → wellFormed (unsubscribe u em).
Proof.
  intros Hwf. unfold unsubscribe.
  destruct (_ =? 0)%nat; apply (wellFormed_shrink em); try done;
    try apply length_insert.
  intros k a H. by apply Map_delete_sub in H as [? _].
Qed.

Lemma wellFormed_off (em : StorageEventEmitter) (event : StorageEvent)
    (l : EventListener) :
  wellFormed em → wellFormed (off em event l).
Proof.
  intros Hwf. unfold off.
  destruct (JS.Map_get (listeners em) (eventKey event)) as [a|]; [|done].
  destruct (_ =? 0)%nat; apply (wellFormed_shrink em); try done;
    try apply length_insert.
  intros k a' H. by apply Map_delete_sub in H as [? _].
Qed.

Lemma wellFormed_removeAllListeners (em : StorageEventEmitter)
    (event : option StorageEvent) :
  wellFormed em → wellFormed (removeAllListeners em event).
Proof.
  intros Hwf. destruct event as [e|]; simpl.
  - apply (wellFormed_shrink em); try done.
    intros k a H. by apply Map_delete_sub in H as [? _].
  - by intros k a.
Qed.

(** Rewriting the set at [a] to [s] and, if [s] is empty, dropping the key
    [k]: sets stay non-empty provided [a] is stored under no other key. *)
Lemma nonEmptySets_rewrite (em : StorageEventEmitter) (a : nat) (k : string)
    (s : list EventListener) :
  nonEmptySets em → a < length (heap em) →
  (∀ k', JS.Map_get (listeners em) k' = Some a → k' = k) →
  nonEmptySets
    (if (length s =? 0)%nat
     then {| heap := <[a := s]> (heap em);
             listeners := JS.Map_delete (listeners em) k |}
     else {| heap := <[a := s]> (heap em); listeners := listeners em |}).
Proof.
  intros Hne Hlt Hinj.
  destruct (length s =? 0)%nat eqn:Hlen; intros k0 a0; simpl; unfold deref; simpl.
  - intros [H0 Hk0]%Map_delete_sub.
    rewrite list_lookup_insert_ne; [by apply (Hne k0)|].
    intros <-. by apply Hk0, Hinj.
  - intros H0. destruct (decide (a0 = a)) as [->|Hna].
    + rewrite list_lookup_insert_eq by done. simpl.
      apply Nat.eqb_neq in Hlen. by destruct s.
    + rewrite list_lookup_insert_ne by done. by apply (Hne k0).
Qed.

Lemma nonEmptySets_unsubscribe (em : StorageEventEmitter) (u : Unsubscribe) :
  nonEmptySets em → issued em u → nonEmptySets (unsubscribe u em).
Proof.
  intros Hne [Hlt Hinj]. unfold unsubscribe.
  by apply (nonEmptySets_rewrite em).
Qed.

Lemma nonEmptySets_off (em : StorageEventEmitter) (event : StorageEvent)
    (l : EventListener) :
  sound em → nonEmptySets (off em event l).
Proof.
  intros [Hwf Hne]. unfold off.
  destruct (JS.Map_get (listeners em) (eventKey event)) as [a|] eqn:Hk; [|done].
  destruct (Hwf _ _ Hk) as [Hlt Hinj].
  by apply (nonEmptySets_rewrite em).
Qed.

Lemma nonEmptySets_removeAllListeners (em : StorageEventEmitter)
    (event : option StorageEvent) :
  nonEmptySets em → nonEmptySets (removeAllListeners em event).
Proof.
  intros Hne. destruct event as [e|]; intros k a; simpl; [|done].
  intros [H _]%Map_delete_sub. by apply (Hne k).
Qed.

Lemma issued_shrink (em em' : StorageEventEmitter) (u : Unsubscribe) :
  issued em u → length (heap em') = length (heap em) →
  (∀ k a, JS.Map_get (listeners em') k = Some a →
          JS.Map_get (listeners em) k = Some a) →
  issued em' u.
Proof.
  intros [Hlt Hinj] Hlen Hsub. split; [by rewrite Hlen|].
  intros k Hk. by apply Hinj, Hsub.
Qed.

Lemma issued_after_on (em : StorageEventEmitter) (event : StorageEvent)
    (l : EventListener) (u : Unsubscribe) :
  wellFormed em → issued em u → issued (on em event l).1 u.
Proof.
  intros Hwf [Hlt Hinj]. unfold on, JS.Map_has.
  destruct (JS.Map_get (listeners em) (eventKey event)) as [a|] eqn:Hk; simpl.
  - split; simpl; [by rewrite length_insert | done].
  - split; simpl; [rewrite length_insert, length_app; lia|].
    intros k Hget.
    destruct (decide (eventKey event = k)) as [<-|Hne].
    + rewrite JSFacts.Map_get_set_eq in Hget. injection Hget as Heq. lia.
    + rewrite JSFacts.Map_get_set_ne in Hget by done. by apply Hinj.
Qed.

Lemma shrinks_unsubscribe (em : StorageEventEmitter) (u : Unsubscribe) :
  length (heap (unsubscribe u em)) = length (heap em)
  ∧ ∀ k a, JS.Map_get (listeners (unsubscribe u em)) k = Some a →
           JS.Map_get (listeners em) k = Some a.
Proof.
  unfold unsubscribe. destruct (_ =? 0)%nat; simpl;
    (split; [apply length_insert|]); [|done].
  intros k a H. by apply Map_delete_sub in H as [? _].
Qed.

Lemma shrinks_off (em : StorageEventEmitter) (event : StorageEvent)
    (l : EventListener) :
  length (heap (off em event l)) = length (heap em)
  ∧ ∀ k a, JS.Map_get (listeners (off em event l)) k = Some a →
           JS.Map_get (listeners em) k = Some a.
Proof.
  unfold off.
  destruct (JS.Map_get (listeners em) (eventKey event)) as [a0|]; [|done].
  destruct (_ =? 0)%nat; simpl; (split; [apply length_insert|]); [|done].
  intros k a H. by apply Map_delete_sub in H as [? _].
Qed.

Lemma shrinks_removeAllListeners (em : StorageEventEmitter)
    (event : option StorageEvent) :
  length (heap (removeAllListeners em event)) = length (heap em)
  ∧ ∀ k a, JS.Map_get (listeners (removeAllListeners em event)) k = Some a →
           JS.Map_get (listeners em) k = Some a.
Proof.
  destruct event as [e|]; simpl; (split; [done|]); [|done].
  intros k a H. by apply Map_delete_sub in H as [? _].
Qed.

(** X19.  The emitter stays sound (every stored set is allocated, belongs
    to one event only and is non-empty) under [on], [off],
    [removeAllListeners] and under every handle it has issued, however late
    the handle is invoked; and a handle once issued stays issued. *)
Theorem bus_stays_sound :
  sound empty
  ∧ ∀ em, sound em →
      (∀ event l, sound (on em event l).1
                  ∧ issued (on em event l).1 (on em event l).2)
      ∧ (∀ event l, sound (off em event l))
      ∧ (∀ event, sound (removeAllListeners em event))
      ∧ (∀ u, issued em u →
           sound (unsubscribe u em)
           ∧ (∀ event l, issued (on em event l).1 u)
           ∧ (∀ event l, issued (off em event l) u)
           ∧ (∀ event, issued (removeAllListeners em event) u)
           ∧ (∀ u', issued (unsubscribe u' em) u)).
Proof.
  split; [split; by intros k a|].
  intros em [Hwf Hne].
  split; [|split; [|split]].
  - intros event l. split.
    + split; [by apply wellFormed_on | by apply nonEmptySets_on].
    + by apply issued_on.
  - intros event l. split; [by apply wellFormed_off | by apply nonEmptySets_off].
  - intros event. split;
      [by apply wellFormed_removeAllListeners
      |by apply nonEmptySets_removeAllListeners].
  - intros u Hu. split; [|split; [|split; [|split]]].
    + split; [by apply wellFormed_unsubscribe | by apply nonEmptySets_unsubscribe].
    + intros event l. by apply issued_after_on.
    + intros event l.
      destruct (shrinks_off em event l). by apply (issued_shrink em).
    + intros event.
      destruct (shrinks_removeAllListeners em event). by apply (issued_shrink em).
    + intros u'.
      destruct (shrinks_unsubscribe em u'). by apply (issued_shrink em).
Qed.

Lemma bus_stays_sound_witness :
  sound (on empty BEFORE_UPLOAD (Sample.logger 1)).1
  ∧ issued (on empty BEFORE_UPLOAD (Sample.logger 1)).1
      (on empty BEFORE_UPLOAD (Sample.logger 1)).2.
Proof.
  apply (proj1 (proj2 bus_stays_sound empty (proj1 bus_stays_sound))).
Defined.

Lemma empty_sound : sound empty.
Proof. split; by intros k a. Qed.

Lemma heard_sound : sound Sample.heard.
Proof.
  change Sample.heard
    with (on (on (on empty BEFORE_UPLOAD (Sample.logger 1)).1 BEFORE_UPLOAD
                (Sample.logger 2)).1 GET_FAILED (Sample.logger 3)).1.
  pose proof empty_sound as S0.
  assert (sound (on empty BEFORE_UPLOAD (Sample.logger 1)).1) as S1
    by (split; [apply wellFormed_on, S0 | by apply nonEmptySets_on]).
  assert (sound (on (on empty BEFORE_UPLOAD (Sample.logger 1)).1 BEFORE_UPLOAD
                   (Sample.logger 2)).1) as S2
    by (split; [apply wellFormed_on, S1 | by apply nonEmptySets_on]).
  split; [apply wellFormed_on, S2 | by apply nonEmptySets_on].
Qed.

(** X20.  On a sound emitter [eventNames] lists exactly the events that
    have a listener: an event's key is listed if and only if
    [hasListeners] holds for it, that is, if and only if its
    [listenerCount] is not zero. *)
Theorem eventNames_are_the_heard_events (em : StorageEventEmitter)
    (event : StorageEvent) :
  sound em →
  (eventKey event ∈ eventNames em ↔ hasListeners em event = true)
  ∧ (eventKey event ∉ eventNames em ↔ listenerCount em event = 0).
Proof.
  intros [Hwf Hne].
  assert (eventKey event ∉ eventNames em ↔ listenerCount em event = 0) as Hz.
  { unfold eventNames. rewrite <- JSMore.Map_get_None.
    unfold listenerCount, registered.
    destruct (JS.Map_get (listeners em) (eventKey event)) as [a|] eqn:Hk.
    - split; [done|]. intros Hlen. exfalso. apply (Hne _ _ Hk).
      by destruct (deref em a).
    - done. }
  split; [|done].
  unfold hasListeners. rewrite negb_true_iff, Nat.eqb_neq.
  destruct (decide (eventKey event ∈ eventNames em)) as [Hin|Hnot].
  - split; [|done]. intros _ H0. by apply Hz in H0.
  - split; [done|]. intros Hc. by apply Hz in Hnot.
Qed.

(** After two listeners have subscribed to uploads and one to failed
    gets, "beforeUpload" is listed and heard, "beforeGet" is neither. *)
Lemma eventNames_are_the_heard_events_witness :
  (eventKey BEFORE_UPLOAD ∈ eventNames Sample.heard
   ∧ hasListeners Sample.heard BEFORE_UPLOAD = true)
  ∧ ((eventKey BEFORE_GET ∉ eventNames Sample.heard)
     ∧ listenerCount Sample.heard BEFORE_GET = 0).
Proof.
  split.
  - assert (hasListeners Sample.heard BEFORE_UPLOAD = true) as H by reflexivity.
    split; [|exact H].
    by apply (proj1 (eventNames_are_the_heard_events Sample.heard BEFORE_UPLOAD
                       heard_sound)).
  - assert (listenerCount Sample.heard BEFORE_GET = 0) as H by reflexivity.
    split; [|exact H].
    by apply (proj2 (eventNames_are_the_heard_events Sample.heard BEFORE_GET
                       heard_sound)).
Defined.

(** X21.  [on] has set semantics.  It adds the listener to its event and
    touches no other event; registering a function that is already
    registered for the event changes nothing, so the count grows by one
    exactly when the function is new, and registering twice is the same as
    registering once. *)
Theorem on_registers_once (em : StorageEventEmitter) (event : StorageEvent)
    (l : EventListener) :
  wellFormed em →
  registered (on em event l).1 event = Set_add (registered em event) l
  ∧ (∀ event', eventKey event' ≠ eventKey event →
       registered (on em event l).1 event' = registered em event')
  ∧ listenerCount (on em event l).1 event
    = (if existsb (same l) (registered em event) then listenerCount em event
       else S (listenerCount em event))
  ∧ (∀ event', registered (on (on em event l).1 event l).1 event'
               = registered (on em event l).1 event').
Proof.
  intros Hwf. pose proof (wellFormed_on em event l Hwf) as Hwf'.
  split; [|split; [|split]].
  - rewrite registered_on by done. by rewrite decide_True.
  - intros event' Hne. rewrite registered_on by done. by rewrite decide_False.
  - unfold listenerCount. rewrite registered_on by done.
    rewrite decide_True by done. unfold Set_add.
    destruct (existsb _ _); [done|]. rewrite length_app. simpl. lia.
  - intros event'. rewrite (registered_on (on em event l).1) by done.
    destruct (decide (eventKey event' = eventKey event)) as [Heq|Hne]; [|done].
    apply eventKey_inj in Heq as ->.
    rewrite registered_on by done. rewrite decide_True by done.
    apply Set_add_idemp.
Qed.

Lemma empty_wellFormed : wellFormed empty.
Proof. by intros k a. Qed.

Lemma on_registers_once_witness :
  registered (on empty BEFORE_GET (Sample.logger 1)).1 BEFORE_GET
  = Set_add (registered empty BEFORE_GET) (Sample.logger 1).
Proof.
  apply (on_registers_once empty BEFORE_GET (Sample.logger 1) empty_wellFormed).
Defined.

(** X22.  [off] removes the listener from its event and from no other;
    afterwards the function is not registered for the event.  Taking a
    newly registered listener off again restores every event's listeners. *)
Theorem off_undoes_on (em : StorageEventEmitter) (event : StorageEvent)
    (l : EventListener) :
  wellFormed em →
  registered (off em event l) event = Set_delete (registered em event) l
  ∧ existsb (same l) (registered (off em event l) event) = false
  ∧ (∀ event', eventKey event' ≠ eventKey event →
       registered (off em event l) event' = registered em event')
  ∧ (existsb (same l) (registered em event) = false →
     ∀ event', registered (off (on em event l).1 event l) event'
               = registered em event').
Proof.
  intros Hwf. pose proof (wellFormed_on em event l Hwf) as Hwf'.
  assert (registered (off em event l) event = Set_delete (registered em event) l)
    as Hoff by (rewrite registered_off by done; by rewrite decide_True).
  split; [done|]. split; [rewrite Hoff; apply Set_delete_gone|]. split.
  - intros event' Hne. rewrite registered_off by done. by rewrite decide_False.
  - intros Hnew event'. rewrite registered_off by done.
    destruct (decide (eventKey event' = eventKey event)) as [Heq|Hne].
    + apply eventKey_inj in Heq as ->. rewrite registered_on by done.
      rewrite decide_True by done. by apply Set_delete_add_new.
    + rewrite registered_on by done. by rewrite decide_False.
Qed.

Lemma off_undoes_on_witness :
  registered (off (on empty BEFORE_GET (Sample.logger 1)).1
                BEFORE_GET (Sample.logger 1)) BEFORE_GET
  = registered empty BEFORE_GET.
Proof.
  apply (proj2 (proj2 (proj2 (off_undoes_on empty BEFORE_GET (Sample.logger 1)
                                empty_wellFormed))) eq_refl BEFORE_GET).
Defined.

(** X23.  [removeAllListeners(event)] leaves that event without listeners
    and every other event as it was; without an argument it leaves no
    event with listeners and [eventNames] empty.  Set objects held by
    handles are not emptied by either. *)
Theorem removeAllListeners_clears (em : StorageEventEmitter) :
  (∀ event, registered (removeAllListeners em (Some event)) event = []
            ∧ ∀ event', eventKey event' ≠ eventKey event →
                registered (removeAllListeners em (Some event)) event'
                = registered em event')
  ∧ (∀ event, registered (removeAllListeners em None) event = [])
  ∧ eventNames (removeAllListeners em None) = []
  ∧ (∀ event, heap (removeAllListeners em event) = heap em).
Proof.
  split; [|split; [|split]].
  - intros event. unfold registered. simpl. split.
    + by rewrite JSFacts.Map_get_delete_eq.
    + intros event' Hne. rewrite JSFacts.Map_get_delete_ne by done. done.
  - done.
  - done.
  - by intros [e|].
Qed.

Lemma removeAllListeners_clears_witness :
  registered (removeAllListeners
                (on (on empty BEFORE_GET (Sample.logger 1)).1 GET_FAILED
                   (Sample.logger 2)).1 (Some BEFORE_GET)) GET_FAILED
  = registered (on (on empty BEFORE_GET (Sample.logger 1)).1 GET_FAILED
                  (Sample.logger 2)).1 GET_FAILED.
Proof.
  apply (proj2 (proj1 (removeAllListeners_clears _) BEFORE_GET) GET_FAILED).
  vm_compute. discriminate.
Defined.

(** Invoking the handle [on] has just returned. *)
Lemma handle_restores (em : StorageEventEmitter) (event : StorageEvent)
    (l : EventListener) :
  wellFormed em → existsb (same l) (registered em event) = false →
  ∀ event',
    registered (unsubscribe (on em event l).2 (on em event l).1) event'
    = registered em event'.
Proof.
  intros Hwf Hnew event'. pose proof (wellFormed_on em event l Hwf) as Hwf'.
  destruct (issued_on em event l Hwf) as [_ Hcur].
  rewrite (BusFacts.unsubscribe_current _ _ event' Hwf' Hcur).
  change (captured_key (on em event l).2) with (eventKey event).
  change (captured_listener (on em event l).2) with l.
  rewrite registered_on by done.
  destruct (decide (eventKey event' = eventKey event)) as [Heq|]; [|done].
  apply eventKey_inj in Heq as ->. by apply Set_delete_add_new.
Qed.

(** X29.  The handle returned by [on] does its job as long as the set it
    captured is still the event's set: invoked on the emitter [on] returned,
    it removes the listener from that event and changes no other event, so
    that subscribing a new listener and invoking its handle restores every
    event's listeners; the same holds for any handle that is still current. *)
Theorem current_handle_unsubscribes (em : StorageEventEmitter)
    (event : StorageEvent) (l : EventListener) :
  wellFormed em →
  (∀ event',
     registered (unsubscribe (on em event l).2 (on em event l).1) event'
     = if decide (eventKey event' = eventKey event)
       then Set_delete (Set_add (registered em event) l) l
       else registered em event')
  ∧ (existsb (same l) (registered em event) = false →
     ∀ event',
       registered (unsubscribe (on em event l).2 (on em event l).1) event'
       = registered em event')
  ∧ (∀ u, current em u →
       ∀ event',
         registered (unsubscribe u em) event'
         = if decide (eventKey event' = captured_key u)
           then Set_delete (registered em event') (captured_listener u)
           else registered em event').
Proof.
  intros Hwf. pose proof (wellFormed_on em event l Hwf) as Hwf'.
  destruct (issued_on em event l Hwf) as [_ Hcur].
  assert (∀ event',
     registered (unsubscribe (on em event l).2 (on em event l).1) event'
     = if decide (eventKey event' = eventKey event)
       then Set_delete (Set_add (registered em event) l) l
       else registered em event') as Hmain.
  { intros event'.
    rewrite (BusFacts.unsubscribe_current _ _ event' Hwf' Hcur).
    change (captured_key (on em event l).2) with (eventKey event).
    change (captured_listener (on em event l).2) with l.
    rewrite registered_on by done.
    by destruct (decide (eventKey event' = eventKey event)). }
  split; [done|]. split.
  - intros Hnew event'. rewrite Hmain.
    destruct (decide (eventKey event' = eventKey event)) as [Heq|]; [|done].
    apply eventKey_inj in Heq as ->. by apply Set_delete_add_new.
  - intros u Hu event'. by apply BusFacts.unsubscribe_current.
Qed.

Lemma current_handle_unsubscribes_witness :
  registered (unsubscribe (on empty BEFORE_LIST (Sample.logger 4)).2
                (on empty BEFORE_LIST (Sample.logger 4)).1) BEFORE_LIST
  = registered empty BEFORE_LIST.
Proof.
  apply (proj1 (proj2 (current_handle_unsubscribes empty BEFORE_LIST
                         (Sample.logger 4) empty_wellFormed)) eq_refl BEFORE_LIST).
Defined.

Lemma guarded_log_length (k : string) (d : EventData) (ls : list EventListener) :
  length (concat (map snd (map (λ l, guarded k (call l d)) ls)))
  = length (List.filter (λ l, throws l d) ls).
Proof.
  induction ls as [|l r IH]; simpl; [done|].
  unfold throws at 1. rewrite length_app.
  destruct (call l d); simpl; by rewrite IH.
Qed.

Lemma Promise_all_returned (k : string) (d : EventData) (ls : list EventListener) :
  Promise_all (map fst (map (λ l, guarded k (call l d)) ls)) = Return () →
  ∀ l, l ∈ ls → rejects l d = false.
Proof.
  induction ls as [|x r IH]; simpl; intros Hret l Hin;
    [by apply elem_of_nil in Hin|].
  apply elem_of_cons in Hin as [->|Hin].
  - unfold rejects. by destruct (call x d).
  - apply IH; [|done]. by destruct (call x d).
Qed.

(** X24.  [emit] completes normally exactly when no listener registered
    for the event returns a rejected promise; when it rejects, the reason is
    the rejection of one of those listeners; and it logs one line for each
    listener that throws synchronously, whose error goes no further. *)
Theorem emit_rejects_only_on_rejection (em : StorageEventEmitter)
    (event : StorageEvent) (d : EventData) :
  ((emit em event d).1 = Return ()
   ↔ ∀ l, l ∈ registered em event → rejects l d = false)
  ∧ (∀ e, (emit em event d).1 = Throw e →
       ∃ l, l ∈ registered em event ∧ call l d = Rejected e)
  ∧ length (emit em event d).2
    = length (List.filter (λ l, throws l d) (registered em event)).
Proof.
  split; [|split].
  - split.
    + unfold emit, registered.
      destruct (JS.Map_get (listeners em) (eventKey event)) as [a|];
        [|by intros _ l Hin%elem_of_nil].
      destruct (length (deref em a) =? 0)%nat eqn:Hlen.
      { apply Nat.eqb_eq in Hlen. destruct (deref em a); [|done].
        by intros _ l Hin%elem_of_nil. }
      simpl. apply Promise_all_returned.
    + intros Hall.
      destruct (emit em event d).1 as [[]|e] eqn:He; [done|].
      apply BusFacts.emit_rejected in He as (l & Hin & Hc).
      specialize (Hall l Hin). unfold rejects in Hall. by rewrite Hc in Hall.
  - intros e. apply BusFacts.emit_rejected.
  - unfold emit, registered.
    destruct (JS.Map_get (listeners em) (eventKey event)) as [a|]; [|done].
    destruct (length (deref em a) =? 0)%nat eqn:Hlen.
    + apply Nat.eqb_eq in Hlen. by destruct (deref em a).
    + simpl. apply guarded_log_length.
Qed.

Lemma emit_rejects_only_on_rejection_witness :
  ∃ l, l ∈ registered (Envelope.eventEmitter Sample.guardedByAsyncValidator)
             BEFORE_UPLOAD
       ∧ call l (Envelope.beforeData Sample.guardedByAsyncValidator 0 "id"
                   (Types.Get "a.txt")) = Rejected Sample.tooLarge.
Proof.
  apply (proj1 (proj2 (emit_rejects_only_on_rejection
                         (Envelope.eventEmitter Sample.guardedByAsyncValidator)
                         BEFORE_UPLOAD
                         (Envelope.beforeData Sample.guardedByAsyncValidator 0 "id"
                            (Types.Get "a.txt"))))).
  reflexivity.
Defined.

Lemma emit_single (em : StorageEventEmitter) (event : StorageEvent)
    (d : EventData) (x : EventListener) :
  registered em event = [x] →
  (Bus.emit em event d).1
  = match call x d with Rejected e => Throw e | _ => Return () end.
Proof.
  unfold Bus.emit, registered.
  destruct (JS.Map_get (listeners em) (eventKey event)) as [a|]; [|done].
  intros ->. simpl. by destruct (call x d).
Qed.

Lemma afterCalls_strangers (o : OneShot.Emitter) (called : list EventListener)
    (em : StorageEventEmitter) :
  Forall (λ l, OneShot.handleOf o l = None) called →
  fold_left (λ em l, match OneShot.handleOf o l with
                     | Some u => unsubscribe u em
                     | None => em
                     end) called em = em.
Proof.
  induction 1 as [|l r Hl _ IH]; simpl; [done|]. by rewrite Hl.
Qed.

(** X30.  A listener registered with [once], as a new function object, on
    an emitter that has no other one-shot listener is called by the next
    [emit] of its event and is gone afterwards, every event's listeners
    being as before [once]; an [emit] of another event does not use it up.
    As the wrapper is an [async] function, a listener that throws
    synchronously makes that [emit] reject (if it is the event's only
    listener), unlike the same listener registered with [on]. *)
Theorem once_fires_once (em : StorageEventEmitter) (event : StorageEvent)
    (l : EventListener) (wid : nat) (d : EventData) :
  wellFormed em →
  (∀ event', Forall (λ l', fn l' ≠ wid) (registered em event')) →
  let o1 := (OneShot.once {| OneShot.bus := em; OneShot.shots := [] |}
               event l wid).1 in
  registered (OneShot.bus o1) event = registered em event ++ [OneShot.wrap wid l]
  ∧ (∀ event', registered (OneShot.bus (OneShot.emit o1 event d).2) event'
               = registered em event')
  ∧ (∀ other, eventKey other ≠ eventKey event →
       OneShot.bus (OneShot.emit o1 other d).2 = OneShot.bus o1)
  ∧ (registered em event = [] →
     (OneShot.emit o1 event d).1.1
     = match call l d with
       | Returned | Fulfilled => Return ()
       | Thrown e | Rejected e => Throw e
       end).
Proof.
  intros Hwf Hfresh o1.
  assert (OneShot.bus o1 = (on em event (OneShot.wrap wid l)).1) as Hbus
    by reflexivity.
  assert (existsb (same (OneShot.wrap wid l)) (registered em event) = false)
    as Hnew.
  { apply not_true_iff_false. intros (l' & Hin & Hs)%existsb_exists.
    apply list_elem_of_In in Hin.
    apply (proj1 (Forall_forall _ _) (Hfresh event)) in Hin.
    unfold same in Hs. apply Nat.eqb_eq in Hs. simpl in Hs. congruence. }
  assert (registered (OneShot.bus o1) event
          = registered em event ++ [OneShot.wrap wid l]) as Hreg.
  { rewrite Hbus, registered_on by done. rewrite decide_True by done.
    unfold Set_add. by rewrite Hnew. }
  assert (∀ event', Forall (λ l', OneShot.handleOf o1 l' = None)
                      (registered em event')) as Hstr.
  { intros event'. eapply Forall_impl; [exact (Hfresh event')|]. intros l' Hl'.
    unfold OneShot.handleOf. simpl.
    destruct (wid =? fn l')%nat eqn:He; [|done].
    apply Nat.eqb_eq in He. congruence. }
  split; [done|]. split; [|split].
  - intros event'. unfold OneShot.emit. cbn [snd OneShot.bus].
    unfold OneShot.afterCalls. rewrite Hreg, fold_left_app.
    rewrite (afterCalls_strangers o1 (registered em event)) by apply Hstr.
    simpl fold_left.
    unfold OneShot.handleOf at 1. simpl. rewrite Nat.eqb_refl. simpl.
    by apply handle_restores.
  - intros other Hne. unfold OneShot.emit. cbn [snd OneShot.bus].
    unfold OneShot.afterCalls. apply afterCalls_strangers.
    rewrite Hbus, registered_on by done. rewrite decide_False by done.
    apply Hstr.
  - intros Hempty. unfold OneShot.emit. cbn [fst].
    rewrite Hempty in Hreg. simpl in Hreg.
    rewrite (emit_single _ _ _ _ Hreg). simpl. by destruct (call l d).
Qed.

Lemma once_fires_once_witness :
  registered
    (OneShot.bus
       (OneShot.emit
          (OneShot.once {| OneShot.bus := empty; OneShot.shots := [] |}
             BEFORE_UPLOAD (Sample.throwingValidator 1) 50).1
          BEFORE_UPLOAD
          (Envelope.beforeData Sample.plain 0 "id" (Types.Get "a.txt"))).2)
    BEFORE_UPLOAD
  = registered empty BEFORE_UPLOAD.
Proof.
  apply (proj1 (proj2 (once_fires_once empty BEFORE_UPLOAD
                         (Sample.throwingValidator 1) 50
                         (Envelope.beforeData Sample.plain 0 "id" (Types.Get "a.txt"))
                         empty_wellFormed (λ event', Forall_nil_2 _))) BEFORE_UPLOAD).
Defined.
End BusMore.

(** ** The string utilities *)

Module UtilsFacts.
Import Utils.

Lemma prefix_twice (x c : ascii) (t : string) :
  String.prefix (twice x) (String c t)
  = bool_decide (c = x) && String.prefix (String x EmptyString) t.
Proof.
  unfold twice. simpl. destruct (ascii_dec x c) as [->|Hne].
  - by rewrite bool_decide_eq_true_2.
  - rewrite bool_decide_eq_false_2; [done|]. congruence.
Qed.

Lemma prefix_single (x c : ascii) (t : string) :
  String.prefix (String x EmptyString) (String c t) = bool_decide (c = x).
Proof.
  simpl. destruct (ascii_dec x c) as [->|Hne].
  - rewrite bool_decide_eq_true_2 by done. by destruct t.
  - rewrite bool_decide_eq_false_2; [done|]. congruence.
Qed.

Lemma collapse_cons (x c : ascii) (r : string) :
  collapse x (String c r)
  = if decide (c = x) then
      match r with
      | String c' _ =>
          if decide (c' = x) then collapse x r else String c (collapse x r)
      | EmptyString => String c EmptyString
      end
    else String c (collapse x r).
Proof. reflexivity. Qed.

(** [collapse] keeps the first character. *)
Lemma collapse_head (x c : ascii) (r : string) :
  ∃ t, collapse x (String c r) = String c t.
Proof.
  revert c. induction r as [|c' r' IH]; intros c; rewrite collapse_cons.
  - destruct (decide (c = x)); eauto.
  - destruct (decide (c = x)) as [->|]; [|eauto].
    destruct (decide (c' = x)) as [->|]; [|eauto].
    apply IH.
Qed.

Lemma collapse_no_run (x : ascii) (s : string) :
  includes (collapse x s) (twice x) = false.
Proof.
  induction s as [|c r IH]; [done|].
  assert (includes (String c (collapse x r)) (twice x)
          = bool_decide (c = x)
            && String.prefix (String x EmptyString) (collapse x r)) as Hcons.
  { cbn [includes]. rewrite prefix_twice, IH. by rewrite orb_false_r. }
  rewrite collapse_cons. destruct (decide (c = x)) as [->|Hne].
  - destruct r as [|c' r'];
      [unfold twice; simpl; by destruct (ascii_dec x x)|].
    destruct (decide (c' = x)) as [->|Hne']; [exact IH|].
    rewrite Hcons. destruct (collapse_head x c' r') as [t ->].
    rewrite prefix_single. rewrite (bool_decide_eq_false_2 _ Hne').
    by rewrite andb_false_r.
  - rewrite Hcons. by rewrite bool_decide_eq_false_2.
Qed.

Lemma includes_tail (c : ascii) (r p : string) :
  includes (String c r) p = false → includes r p = false.
Proof. cbn [includes]. by intros [_ ?]%orb_false_iff. Qed.

Lemma collapse_fixed (x : ascii) (s : string) :
  includes s (twice x) = false → collapse x s = s.
Proof.
  induction s as [|c r IH]; [done|]. intros Hs.
  pose proof (includes_tail _ _ _ Hs) as Hr.
  cbn [includes] in Hs. apply orb_false_iff in Hs as [Hp _].
  rewrite prefix_twice in Hp.
  rewrite collapse_cons. destruct (decide (c = x)) as [->|Hne]; [|by rewrite IH].
  rewrite bool_decide_eq_true_2 in Hp by done. simpl in Hp.
  destruct r as [|c' r']; [done|].
  rewrite prefix_single in Hp. apply bool_decide_eq_false in Hp.
  rewrite decide_False by done. by rewrite IH.
Qed.

Lemma allChars_collapse (p : ascii → bool) (x : ascii) (s : string) :
  allChars p s = true → allChars p (collapse x s) = true.
Proof.
  induction s as [|c r IH]; [done|]. cbn [allChars].
  intros [Hc Hr]%andb_true_iff. specialize (IH Hr).
  rewrite collapse_cons. destruct (decide (c = x)) as [->|Hne].
  - destruct r as [|c' r']; [by simpl; rewrite Hc|].
    destruct (decide (c' = x)); [done|]. cbn [allChars]. by rewrite Hc, IH.
  - cbn [allChars]. by rewrite Hc, IH.
Qed.

Lemma allChars_replaceChar (x y : ascii) (s : string) :
  y ≠ x → allChars (isNot x) (replaceChar x y s) = true.
Proof.
  intros Hne. induction s as [|c r IH]; [done|]. simpl. rewrite IH.
  unfold isNot. destruct (decide (c = x)).
  - by rewrite bool_decide_eq_false_2.
  - by rewrite bool_decide_eq_false_2.
Qed.

Lemma replaceChar_fixed (x y : ascii) (s : string) :
  allChars (isNot x) s = true → replaceChar x y s = s.
Proof.
  induction s as [|c r IH]; [done|]. simpl.
  intros [Hc Hr]%andb_true_iff. rewrite IH by done.
  unfold isNot in Hc. apply negb_true_iff, bool_decide_eq_false in Hc.
  by rewrite decide_False.
Qed.

(** X25.  [normalizePath] yields a path without backslashes and without
    two slashes in a row; it is idempotent, and leaves alone every path that
    already has that form. *)
Theorem normalizePath_normal (path : string) :
  allChars (isNot backslash) (normalizePath path) = true
  ∧ includes (normalizePath path) "//" = false
  ∧ normalizePath (normalizePath path) = normalizePath path
  ∧ (allChars (isNot backslash) path = true → includes path "//" = false →
     normalizePath path = path).
Proof.
  assert (∀ p, allChars (isNot backslash) (normalizePath p) = true) as H1.
  { intros p. apply allChars_collapse. by apply allChars_replaceChar. }
  assert (∀ p, includes (normalizePath p) "//" = false) as H2
    by (intros p; apply (collapse_no_run "/")).
  assert (∀ p, allChars (isNot backslash) p = true → includes p "//" = false →
            normalizePath p = p) as H3.
  { intros p Hb Hs. unfold normalizePath. rewrite replaceChar_fixed by done.
    by apply (collapse_fixed "/"). }
  repeat split; auto.
Qed.

Lemma normalizePath_normal_witness : normalizePath "a/b/c.txt" = "a/b/c.txt".
Proof.
  apply (proj2 (proj2 (proj2 (normalizePath_normal "a/b/c.txt")))); reflexivity.
Defined.

Lemma allChars_maskUnsafe (s : string) : allChars safeChar (maskUnsafe s) = true.
Proof.
  induction s as [|c r IH]; [done|]. simpl. rewrite IH.
  by destruct (safeChar c) eqn:Hc; rewrite ?Hc.
Qed.

Lemma maskUnsafe_fixed (s : string) :
  allChars safeChar s = true → maskUnsafe s = s.
Proof.
  induction s as [|c r IH]; [done|]. simpl.
  intros [-> Hr]%andb_true_iff. by rewrite IH.
Qed.

Lemma allChars_dropLeading (p : ascii → bool) (s : string) :
  allChars p s = true → allChars p (dropLeading s) = true.
Proof.
  destruct s as [|c r]; [done|]. simpl. intros [Hc Hr]%andb_true_iff.
  destruct (decide (c = "_"%char)); [done|]. simpl. by rewrite Hc, Hr.
Qed.

Lemma allChars_dropTrailing (p : ascii → bool) (s : string) :
  allChars p s = true → allChars p (dropTrailing s) = true.
Proof.
  induction s as [|c r IH]; [done|]. cbn [allChars].
  intros [Hc Hr]%andb_true_iff. destruct r as [|c' r'].
  - simpl. destruct (decide (c = "_"%char)); [done|]. simpl. by rewrite Hc.
  - change (dropTrailing (String c (String c' r')))
      with (String c (dropTrailing (String c' r'))).
    cbn [allChars]. by rewrite Hc, IH.
Qed.

Lemma dropTrailing_cons2 (c c' : ascii) (r : string) :
  dropTrailing (String c (String c' r)) = String c (dropTrailing (String c' r)).
Proof. reflexivity. Qed.

(** [dropTrailing] keeps the first character unless the string is [_]. *)
Lemma dropTrailing_head (x : ascii) (s : string) :
  String.prefix (String x EmptyString) (dropTrailing s) = true →
  String.prefix (String x EmptyString) s = true.
Proof.
  destruct s as [|c r]; [done|]. destruct r as [|c' r'].
  - simpl. destruct (decide (c = "_"%char)); [done|]. done.
  - rewrite dropTrailing_cons2, !prefix_single. done.
Qed.

Lemma includes_dropTrailing (x : ascii) (s : string) :
  includes s (twice x) = false → includes (dropTrailing s) (twice x) = false.
Proof.
  induction s as [|c r IH]; [done|]. intros Hs.
  pose proof (includes_tail _ _ _ Hs) as Hr.
  cbn [includes] in Hs. apply orb_false_iff in Hs as [Hp _].
  rewrite prefix_twice in Hp.
  destruct r as [|c' r'].
  - simpl. destruct (decide (c = "_"%char)); [done|].
    unfold twice. simpl. by destruct (ascii_dec x c).
  - rewrite dropTrailing_cons2. cbn [includes].
    rewrite prefix_twice, (IH Hr), orb_false_r.
    destruct (bool_decide (c = x)); [|done]. cbn [andb] in *.
    destruct (String.prefix (String x EmptyString) (dropTrailing (String c' r')))
      eqn:Hd; [|done].
    apply dropTrailing_head in Hd. congruence.
Qed.

Lemma dropLeading_no_lead (s : string) :
  includes s "__" = false → startsWith (dropLeading s) "_" = false.
Proof.
  unfold startsWith. destruct s as [|c r]; [done|]. intros Hs.
  cbn [includes] in Hs. apply orb_false_iff in Hs as [Hp _].
  change "__" with (twice "_") in Hp. rewrite prefix_twice in Hp.
  simpl. destruct (decide (c = "_"%char)) as [->|Hne].
  - by rewrite bool_decide_eq_true_2 in Hp.
  - change "_" with (String "_" EmptyString).
    rewrite prefix_single. by rewrite bool_decide_eq_false_2.
Qed.

Lemma dropTrailing_no_lead (s : string) :
  startsWith s "_" = false → startsWith (dropTrailing s) "_" = false.
Proof.
  unfold startsWith. intros Hs.
  destruct (String.prefix "_" (dropTrailing s)) eqn:Hd; [|done].
  apply (dropTrailing_head "_") in Hd. congruence.
Qed.

Lemma endsWith_cons (c : ascii) (r p : string) :
  endsWith (String c r) p = String.eqb (String c r) p || endsWith r p.
Proof. reflexivity. Qed.

Lemma dropTrailing_no_trail (s : string) :
  includes s "__" = false → endsWith (dropTrailing s) "_" = false.
Proof.
  induction s as [|c r IH]; [done|]. intros Hs.
  pose proof (includes_tail _ _ _ Hs) as Hr.
  cbn [includes] in Hs. apply orb_false_iff in Hs as [Hp _].
  change "__" with (twice "_") in Hp. rewrite prefix_twice in Hp.
  destruct r as [|c' r'].
  - simpl. destruct (decide (c = "_"%char)) as [->|Hne]; [done|].
    rewrite endsWith_cons. apply orb_false_iff. split; [|done].
    apply String.eqb_neq. congruence.
  - rewrite dropTrailing_cons2, endsWith_cons, (IH Hr), orb_false_r.
    apply String.eqb_neq. intros [= -> Hd].
    rewrite bool_decide_eq_true_2 in Hp by done. cbn [andb] in Hp.
    rewrite prefix_single in Hp. apply bool_decide_eq_false in Hp.
    destruct r' as [|c'' r''].
    + simpl in Hd. by destruct (decide (c' = "_"%char)).
    + first [done | by rewrite dropTrailing_cons2 in Hd].
Qed.

Lemma dropLeading_fixed (s : string) :
  startsWith s "_" = false → dropLeading s = s.
Proof.
  unfold startsWith. destruct s as [|c r]; [done|].
  change "_" with (String "_" EmptyString). rewrite prefix_single.
  intros Hc%bool_decide_eq_false. simpl. by rewrite decide_False.
Qed.

Lemma dropTrailing_fixed (s : string) :
  endsWith s "_" = false → dropTrailing s = s.
Proof.
  induction s as [|c r IH]; [done|]. rewrite endsWith_cons.
  intros [Hc Hr]%orb_false_iff. destruct r as [|c' r'].
  - simpl. destruct (decide (c = "_"%char)) as [->|]; [|done].
    by rewrite String.eqb_refl in Hc.
  - by rewrite dropTrailing_cons2, IH.
Qed.

Lemma includes_dropLeading (s p : string) :
  includes s p = false → includes (dropLeading s) p = false.
Proof.
  destruct s as [|c r]; [done|]. intros Hs. simpl.
  destruct (decide (c = "_"%char)); [|done]. by apply includes_tail in Hs.
Qed.

(** X26.  [sanitizeFilename] returns a name made only of letters, digits,
    dots, hyphens and underscores, with no two underscores in a row and no
    underscore at either end; it is idempotent, and a name already of that
    form is returned unchanged. *)
Theorem sanitizeFilename_clean (filename : string) :
  allChars safeChar (sanitizeFilename filename) = true
  ∧ includes (sanitizeFilename filename) "__" = false
  ∧ startsWith (sanitizeFilename filename) "_" = false
  ∧ endsWith (sanitizeFilename filename) "_" = false
  ∧ sanitizeFilename (sanitizeFilename filename) = sanitizeFilename filename
  ∧ (allChars safeChar filename = true → includes filename "__" = false →
     startsWith filename "_" = false → endsWith filename "_" = false →
     sanitizeFilename filename = filename).
Proof.
  assert (∀ f, allChars safeChar (sanitizeFilename f) = true) as H1.
  { intros f. apply allChars_dropTrailing, allChars_dropLeading,
      allChars_collapse, allChars_maskUnsafe. }
  assert (∀ f, includes (dropLeading (collapse "_" (maskUnsafe f))) "__" = false)
    as H2' by (intros f; apply includes_dropLeading, (collapse_no_run "_")).
  assert (∀ f, includes (sanitizeFilename f) "__" = false) as H2
    by (intros f; apply (includes_dropTrailing "_"), H2').
  assert (∀ f, startsWith (sanitizeFilename f) "_" = false) as H3.
  { intros f. apply dropTrailing_no_lead, dropLeading_no_lead,
      (collapse_no_run "_"). }
  assert (∀ f, endsWith (sanitizeFilename f) "_" = false) as H4
    by (intros f; apply dropTrailing_no_trail, H2').
  assert (∀ f, allChars safeChar f = true → includes f "__" = false →
            startsWith f "_" = false → endsWith f "_" = false →
            sanitizeFilename f = f) as H5.
  { intros f Ha Hd Hl Ht. unfold sanitizeFilename.
    rewrite maskUnsafe_fixed by done.
    rewrite (collapse_fixed "_") by done.
    rewrite dropLeading_fixed by done. by apply dropTrailing_fixed. }
  repeat split; auto.
Qed.

Lemma sanitizeFilename_clean_witness :
  sanitizeFilename "report_2024-final.v2.pdf" = "report_2024-final.v2.pdf".
Proof.
  apply (proj2 (proj2 (proj2 (proj2 (proj2
           (sanitizeFilename_clean "report_2024-final.v2.pdf"))))));
    reflexivity.
Defined.

Lemma split_cons (sep c : ascii) (r : string) :
  split sep (String c r)
  = if decide (c = sep) then EmptyString :: split sep r
    else match split sep r with
         | h :: t => String c h :: t
         | [] => [String c EmptyString]
         end.
Proof. reflexivity. Qed.

Lemma split_nonempty (sep : ascii) (s : string) : split sep s ≠ [].
Proof.
  induction s as [|c r IH]; [done|]. rewrite split_cons.
  destruct (decide (c = sep)); [done|]. by destruct (split sep r).
Qed.

Lemma split_nosep (sep : ascii) (s : string) :
  allChars (isNot sep) s = true → split sep s = [s].
Proof.
  induction s as [|c r IH]; [done|]. cbn [allChars].
  intros [Hc Hr]%andb_true_iff. rewrite split_cons, (IH Hr).
  unfold isNot in Hc. apply negb_true_iff, bool_decide_eq_false in Hc.
  by rewrite decide_False.
Qed.

Lemma split_parts (sep : ascii) (s : string) :
  Forall (λ p, allChars (isNot sep) p = true) (split sep s).
Proof.
  induction s as [|c r IH]; [by repeat constructor|]. rewrite split_cons.
  destruct (decide (c = sep)) as [->|Hne]; [by constructor|].
  destruct (split sep r) as [|h t]; simpl.
  - repeat constructor. simpl. unfold isNot.
    by rewrite bool_decide_eq_false_2.
  - apply Forall_cons in IH as [Hh Ht]. constructor; [|done].
    simpl. rewrite Hh. unfold isNot. by rewrite bool_decide_eq_false_2.
Qed.

Lemma split_last (sep : ascii) (a e : string) :
  allChars (isNot sep) e = true →
  ∃ h t, split sep (a +:+ String sep e) = h :: t ∧ t ≠ []
         ∧ List.last t EmptyString = e.
Proof.
  intros He. induction a as [|c a' IH].
  - change (EmptyString +:+ String sep e) with (String sep e).
    rewrite split_cons, decide_True by done. rewrite (split_nosep _ _ He).
    by eexists _, _.
  - change (String c a' +:+ String sep e) with (String c (a' +:+ String sep e)).
    destruct IH as (h & t & Hs & Ht & Hl). rewrite split_cons, Hs.
    destruct (decide (c = sep)).
    + eexists _, _. split; [done|]. split; [done|].
      by destruct t.
    + by eexists _, _.
Qed.

(** X28.  [getFileExtension] returns the text after the last dot: the
    result never contains a dot, it is empty for a name without a dot, and
    for a name that ends in a dot followed by dot-free text it is that
    text. *)
Theorem getFileExtension_after_last_dot (filename : string) :
  allChars (isNot ".") (getFileExtension filename) = true
  ∧ (allChars (isNot ".") filename = true → getFileExtension filename = "")
  ∧ (∀ stem ext, allChars (isNot ".") ext = true →
       filename = stem +:+ String "." ext → getFileExtension filename = ext).
Proof.
  unfold getFileExtension. split; [|split].
  - destruct (1 <? length (split "." filename))%nat; [|done].
    pose proof (split_parts "." filename) as Hall.
    pose proof (split_nonempty "." filename) as Hne.
    induction (split "." filename) as [|p ps IH]; [done|].
    apply Forall_cons in Hall as [Hp Hps].
    destruct ps as [|q qs]; [done|]. by apply IH.
  - intros Hno. by rewrite (split_nosep _ _ Hno).
  - intros stem ext Hext ->.
    destruct (split_last "." stem ext Hext) as (h & t & -> & Ht & Hl).
    destruct t as [|q qs]; [done|]. done.
Qed.

Lemma getFileExtension_after_last_dot_witness :
  getFileExtension "archive.tar.gz" = "gz".
Proof.
  apply (proj2 (proj2 (getFileExtension_after_last_dot "archive.tar.gz"))
           "archive.tar" "gz"); reflexivity.
Defined.

(** X27.  Keys accepted by [isValidKey] that hold no backslash are left
    unchanged by [normalizePath]; and a normalized path is rejected by
    [isValidKey] only for being empty or for a slash at its start or end. *)
Theorem valid_keys_are_normal (key : string) :
  (isValidKey key = true → allChars (isNot backslash) key = true →
   normalizePath key = key)
  ∧ isValidKey (normalizePath key)
    = negb (String.eqb (normalizePath key) "")
      && negb (startsWith (normalizePath key) "/")
      && negb (endsWith (normalizePath key) "/").
Proof.
  split.
  - unfold isValidKey. rewrite !andb_true_iff, !negb_true_iff.
    intros [_ Hd] Hb. unfold normalizePath.
    rewrite replaceChar_fixed by done. by apply (collapse_fixed "/").
  - unfold isValidKey.
    rewrite (collapse_no_run "/" (replaceChar backslash "/" key) : includes (normalizePath key) "//" = false).
    simpl. rewrite andb_true_r.
    by destruct (normalizePath key).
Qed.

Lemma valid_keys_are_normal_witness :
  normalizePath "docs/2024/report.pdf" = "docs/2024/report.pdf".
Proof.
  apply (proj1 (valid_keys_are_normal "docs/2024/report.pdf")); reflexivity.
Defined.
End UtilsFacts.
